(** * pika: a console logger — shallow embedding and verified properties

    The development follows the current implementation of the library:
    the logger class [Pika] (index.ts, the revision with [#useColors] and
    [clone]) and its helpers (utils.ts: [Figure], [Colour], [Level], the
    descriptor table [TYPES], [colour], [shouldUseColors]).

    JavaScript strings are sequences of UTF-16 code units; they are modelled
    as [list N], one number per code unit, so that [length], [split],
    [replaceAll] and concatenation mean what they mean in the host language. *)

From stdpp Require Import base list strings.
From Stdlib Require Import NArith ZArith Lia.
From Stdlib Require DecimalString.

Local Open Scope N_scope.

(** ** Strings *)

Abbreviation jsstring := (list N).

(** An ASCII literal as a sequence of code units. *)
Definition str (s : string) : jsstring :=
  map Ascii.N_of_ascii (String.list_ascii_of_string s).

(** The line feed, ["\n"]. *)
Definition str_nl : jsstring := [10].

Module JsString.

(** [t.startsWith(s)] *)
Fixpoint prefixb (s t : jsstring) : bool :=
  match s, t with
  | [], _ => true
  | _ :: _, [] => false
  | a :: s', c :: t' => (a =? c) && prefixb s' t'
  end.

(** [t.includes(s)] *)
Fixpoint includes (s t : jsstring) : bool :=
  prefixb s t ||
  match t with
  | [] => false
  | _ :: t' => includes s t'
  end.

(** [s] occurs in [t] as a contiguous substring. *)
Definition occurs (s t : jsstring) : Prop :=
  ∃ pre post, t = pre ++ s ++ post.

(** [t.replaceAll(s, p)] for a string pattern [s] and a replacement [p]
    without [$] patterns (ECMAScript String.prototype.replaceAll): the
    matches are found left to right, each search resuming
    [max 1 (length s)] code units after the start of the previous match.
    [skip] counts the code units of the current match still to be dropped. *)
Fixpoint replaceAll_go (s p : jsstring) (skip : nat) (t : jsstring) : jsstring :=
  match t with
  | [] => []
  | c :: t' =>
      match skip with
      | S k => replaceAll_go s p k t'
      | O =>
          if prefixb s t
          then p ++ replaceAll_go s p (length s - 1) t'
          else c :: replaceAll_go s p 0 t'
      end
  end.

(** With the empty pattern every position of [t] matches, the end included. *)
Definition replaceAll (s p t : jsstring) : jsstring :=
  match s with
  | [] => p ++ flat_map (fun c => c :: p) t
  | _ :: _ => replaceAll_go s p 0 t
  end.

(** [pieces.join(sep)] *)
Fixpoint join (sep : jsstring) (pieces : list jsstring) : jsstring :=
  match pieces with
  | [] => []
  | [x] => x
  | x :: rest => x ++ sep ++ join sep rest
  end.

(** [t.split(sep)] for a separator of one code unit: never the empty list. *)
Fixpoint split1 (sep : N) (t : jsstring) : list jsstring :=
  match t with
  | [] => [[]]
  | c :: t' =>
      if c =? sep then [] :: split1 sep t'
      else match split1 sep t' with
           | [] => [[c]]
           | x :: rest => (c :: x) :: rest
           end
  end.

(** [" ".repeat(n)] and friends. *)
Definition repeat_str (s : jsstring) (n : nat) : jsstring :=
  concat (replicate n s).

End JsString.

Import JsString.

(** ** Values a logging call can receive

    The payload shapes the formatter distinguishes.  [VNum] stands for a
    safe integer, an integral Number of magnitude below 2^53, which the host
    prints in plain decimal digits; larger integers, fractions, NaN and the
    infinities are not modelled, neither are BigInt values and cyclic
    objects, on which [JSON.stringify] throws.  [VDate] carries the two
    renderings of a Date the code can ask for; an object is the list of its
    own enumerable properties in the order [Object.entries] yields them. *)

Record JsError := {
  err_name : jsstring;
  err_message : jsstring;
  err_stack : option jsstring;
}.

#[warnings="-register-all"] Inductive JsValue :=
| VUndefined
| VNull
| VBool (b : bool)
| VNum (z : Z)
| VStr (s : jsstring)
| VArr (items : list JsValue)
| VObj (entries : list (jsstring * JsValue))
| VError (e : JsError)
| VDate (toString toISOString : jsstring)
| VRegExp (source flags : jsstring).

Module Js.

(** Truthiness of a value that is a string or [undefined]. *)
Definition truthy (v : option jsstring) : bool :=
  match v with
  | None => false
  | Some [] => false
  | Some (_ :: _) => true
  end.

(** The decimal digits of a safe integer, as [String] and [JSON.stringify]
    print it. *)
Definition decimal (z : Z) : jsstring :=
  str (DecimalString.NilZero.string_of_int (Z.to_int z)).

(** [Error.prototype.toString] *)
Definition error_toString (e : JsError) : jsstring :=
  match err_name e, err_message e with
  | [], msg => msg
  | name, [] => name
  | name, msg => name ++ str ": " ++ msg
  end.

(** [String(v)] *)
Fixpoint String (v : JsValue) : jsstring :=
  match v with
  | VUndefined => str "undefined"
  | VNull => str "null"
  | VBool true => str "true"
  | VBool false => str "false"
  | VNum z => decimal z
  | VStr s => s
  | VArr items =>
      join (str ",")
        (map (fun x => match x with
                       | VUndefined | VNull => []
                       | _ => String x
                       end) items)
  | VObj _ => str "[object Object]"
  | VError e => error_toString e
  | VDate s _ => s
  | VRegExp source flags => str "/" ++ source ++ str "/" ++ flags
  end.

Definition hex_digit (n : N) : N :=
  if n <? 10 then 48 + n else 87 + n.

(** [\uXXXX] with lower-case hexadecimal digits. *)
Definition unicode_escape (c : N) : jsstring :=
  str "\u" ++ [hex_digit (c / 4096 mod 16); hex_digit (c / 256 mod 16);
               hex_digit (c / 16 mod 16); hex_digit (c mod 16)].

Definition is_lead (c : N) : bool := (55296 <=? c) && (c <=? 56319).
Definition is_trail (c : N) : bool := (56320 <=? c) && (c <=? 57343).

Definition quote_unit (c : N) : jsstring :=
  if c =? 8 then str "\b"
  else if c =? 9 then str "\t"
  else if c =? 10 then str "\n"
  else if c =? 12 then str "\f"
  else if c =? 13 then str "\r"
  else if c =? 34 then [92; 34]
  else if c =? 92 then [92; 92]
  else if c <? 32 then unicode_escape c
  else if is_lead c || is_trail c then unicode_escape c
  else [c].

(** The body of QuoteJSONString: a surrogate pair is copied, a lone
    surrogate escaped. *)
Fixpoint quote_units (t : jsstring) : jsstring :=
  match t with
  | [] => []
  | c :: t' =>
      match t' with
      | d :: t'' =>
          if is_lead c && is_trail d then c :: d :: quote_units t''
          else quote_unit c ++ quote_units t'
      | [] => quote_unit c
      end
  end.

Definition quote (s : jsstring) : jsstring := [34] ++ quote_units s ++ [34].

(** [JSON.stringify(v)]; [None] is the result [undefined]. *)
Fixpoint stringify (v : JsValue) : option jsstring :=
  match v with
  | VUndefined => None
  | VNull => Some (str "null")
  | VBool true => Some (str "true")
  | VBool false => Some (str "false")
  | VNum z => Some (decimal z)
  | VStr s => Some (quote s)
  | VArr items =>
      Some (str "[" ++
            join (str ",") (map (fun x => default (str "null") (stringify x)) items) ++
            str "]")
  | VObj entries =>
      Some (str "{" ++
            join (str ",")
              (omap (fun kv => match stringify (snd kv) with
                               | Some j => Some (quote (fst kv) ++ str ":" ++ j)
                               | None => None
                               end) entries) ++
            str "}")
  | VError _ => Some (str "{}")
  | VDate _ iso => Some (quote iso)
  | VRegExp _ _ => Some (str "{}")
  end.

(** A value interpolated in a template literal after [JSON.stringify]. *)
Definition template (j : option jsstring) : jsstring :=
  default (str "undefined") j.

(** [Object.entries(v)] for the values that reach [#formatObject]. *)
Definition entries (v : JsValue) : list (jsstring * JsValue) :=
  match v with
  | VObj kvs => kvs
  | VArr items => imap (fun i x => (decimal (Z.of_nat i), x)) items
  | _ => []
  end.

End Js.

(** ** utils.ts *)

Module Utils.

Module Figure.
Definition TICK : jsstring := [10004].
Definition INFO : jsstring := [8505].
Definition CROSS : jsstring := [10006].
Definition WARNING : jsstring := [9888].
Definition ELLIPSIS : jsstring := [8230].
Definition POINTER_SMALL : jsstring := [8250].
End Figure.

Definition ESC : N := 27.

Inductive Colour :=
| RED | BOLD | GREY | BLUE | CYAN | RESET | GREEN | YELLOW | MAGENTA | UNDERLINE.

(** The escape string each member of [Colour] stands for. *)
Definition code (c : Colour) : jsstring :=
  ESC :: match c with
         | RED => str "[31m"
         | BOLD => str "[1m"
         | GREY => str "[90m"
         | BLUE => str "[34m"
         | CYAN => str "[36m"
         | RESET => str "[0m"
         | GREEN => str "[32m"
         | YELLOW => str "[33m"
         | MAGENTA => str "[35m"
         | UNDERLINE => str "[4m"
         end.

Inductive Level := TRACE | DEBUG | INFO | WARN | ERROR | FATAL.

(** The number each member of [Level] stands for. *)
Definition rank (l : Level) : Z :=
  match l with
  | TRACE => 0 | DEBUG => 1 | INFO => 2 | WARN => 3 | ERROR => 4 | FATAL => 5
  end%Z.

Inductive Stream := Stdout | Stderr.

Inductive LogTypeName := success | warn | error | fatal | trace | debug | info.

Record LogType := {
  label : jsstring;
  level : Level;
  badge : jsstring;
  colour_of : Colour;
  stream : Stream;
}.

Definition createLogType (label : jsstring) (level : Level) (badge : jsstring)
    (colour : Colour) (stream : option Stream) : LogType :=
  {| label := label; level := level; badge := badge; colour_of := colour;
     stream := default Stdout stream |}.

Definition colour (input : jsstring) (colours : list Colour) : jsstring :=
  concat (map code colours) ++ input ++ code RESET.

(** What [shouldUseColors] and the constructor read from the process. *)
Record Env := {
  NO_COLOR : option jsstring;
  NODE_DISABLE_COLORS : option jsstring;
  FORCE_COLOR : option jsstring;
  isTTY : option bool;
  (** the value [#getFilename()] computes from the call stack *)
  getFilename : jsstring;
}.

Definition shouldUseColors (env : Env) : bool :=
  if Js.truthy (NO_COLOR env) || Js.truthy (NODE_DISABLE_COLORS env) then false
  else if Js.truthy (FORCE_COLOR env) then true
  else default false (isTTY env).

Definition TYPES (name : LogTypeName) : LogType :=
  match name with
  | success => createLogType (str "success") INFO Figure.TICK GREEN None
  | warn => createLogType (str "warn") WARN Figure.WARNING YELLOW None
  | error => createLogType (str "error") ERROR Figure.CROSS RED (Some Stderr)
  | fatal => createLogType (str "fatal") FATAL Figure.CROSS RED (Some Stderr)
  | trace => createLogType (str "trace") TRACE Figure.ELLIPSIS BLUE None
  | debug => createLogType (str "debug") DEBUG Figure.INFO CYAN None
  | info => createLogType (str "info") INFO Figure.INFO BLUE None
  end.

(** [Object.values(TYPES)], in insertion order. *)
Definition TYPES_values : list LogType :=
  map TYPES [success; warn; error; fatal; trace; debug; info].

End Utils.

(** ** Strings that overlap *)

Module Overlap.

(** [u] and [p] overlap when one occurs in the other, or a non-empty end
    of [u] is the opposite end of [p]: an occurrence of [u] could then share
    code units with an occurrence of [p]. *)
Definition overlaps (u p : jsstring) : Prop :=
  occurs u p ∨ occurs p u ∨
  (∃ w, w ≠ [] ∧ w `suffix_of` u ∧ w `prefix_of` p) ∨
  (∃ w, w ≠ [] ∧ w `prefix_of` u ∧ w `suffix_of` p).

(** [a === b] on strings. *)
Definition eqb (a b : jsstring) : bool :=
  (length a =? length b)%nat && prefixb a b.

(** The same, decided: the ends are compared for every length [k] from 1
    to the length of the shorter string. *)
Definition overlapsb (u p : jsstring) : bool :=
  includes u p || includes p u ||
  existsb (fun k => eqb (drop (length u - k) u) (take k p) ||
                    eqb (take k u) (drop (length p - k) p))
    (seq 1 (Nat.min (length u) (length p))).

End Overlap.

(** ** index.ts: the logger *)

(** The two output sinks, each as the sequence of chunks written to it. *)
Record World := {
  stdout : list jsstring;
  stderr : list jsstring;
}.

Definition write (s : Utils.Stream) (chunk : jsstring) (w : World) : World :=
  match s with
  | Utils.Stdout => {| stdout := stdout w ++ [chunk]; stderr := stderr w |}
  | Utils.Stderr => {| stdout := stdout w; stderr := stderr w ++ [chunk] |}
  end.

(** Number of stream writes performed so far. *)
Definition writes (w : World) : nat := length (stdout w) + length (stderr w).

Module Pika.

Import Utils.

(** [Partial<PikaOptions>]: a field that is absent or [undefined] is [None]. *)
Record PikaOptions := {
  o_scope : option jsstring;
  o_level : option Level;
  o_secrets : option (list jsstring);
  o_useColors : option bool;
}.

(** An object literal of overrides as [clone] receives it: for each key,
    [None] when the key is absent, [Some v] when it is present with value
    [v] ([v = None] being an explicit [undefined]). *)
Record Overrides := {
  v_scope : option (option jsstring);
  v_level : option (option Level);
  v_secrets : option (option (list jsstring));
  v_useColors : option (option bool);
}.

(** [{ ...base, ...overrides }] *)
Definition spread (base : PikaOptions) (ov : Overrides) : PikaOptions :=
  {| o_scope := default (o_scope base) (v_scope ov);
     o_level := default (o_level base) (v_level ov);
     o_secrets := default (o_secrets base) (v_secrets ov);
     o_useColors := default (o_useColors base) (v_useColors ov) |}.

(** The private fields of an instance. *)
Record t := {
  f_scope : jsstring;
  f_level : Level;
  f_longest : nat;
  f_useColors : bool;
  f_secrets : list jsstring;
}.

Definition getLongestLabel : nat :=
  foldr Nat.max 0%nat
    (filter (fun n => (0 < n)%nat) (map (fun ty => length (label ty)) TYPES_values)).

(** [new Pika(options)] *)
Definition new (env : Env) (options : PikaOptions) : t :=
  {| f_scope := default (getFilename env) (o_scope options);
     f_level := default INFO (o_level options);
     f_longest := getLongestLabel;
     f_secrets := default [] (o_secrets options);
     f_useColors := default (shouldUseColors env) (o_useColors options) |}.

(** [get options()] *)
Definition options (this : t) : PikaOptions :=
  {| o_scope := Some (f_scope this);
     o_level := Some (f_level this);
     o_secrets := Some (f_secrets this);
     o_useColors := Some (f_useColors this) |}.

Definition REDACTED : jsstring := str "[REDACTED]".

(** A secret that is not empty and does not overlap the placeholder. *)
Definition apart_from_placeholder (secret : jsstring) : bool :=
  match secret with
  | [] => false
  | _ :: _ => negb (Overlap.overlapsb secret REDACTED)
  end.

Definition filterSecrets (this : t) (input : jsstring) : jsstring :=
  if (length (f_secrets this) =? 0)%nat then input
  else fold_left (fun sanitized secret => replaceAll secret REDACTED sanitized)
         (f_secrets this) input.

Definition formatScope (this : t) : jsstring :=
  str "[" ++ f_scope this ++ str "]".

Definition getMeta (this : t) : list jsstring :=
  let meta := [formatScope this] in
  if (0 <? length meta)%nat
  then map (fun item => colour item [GREY]) (meta ++ [Figure.POINTER_SMALL])
  else meta.

Definition applyColor (this : t) (text : jsstring) (colors : list Colour) : jsstring :=
  if f_useColors this then colour text colors else text.

Definition formatError (this : t) (e : JsError) : jsstring :=
  if negb (Js.truthy (err_stack e)) then err_message e
  else
    match split1 10 (default [] (err_stack e)) with
    | name :: stackLines =>
        applyColor this name [UNDERLINE] ++ str_nl ++
        applyColor this (join str_nl stackLines) [GREY]
    | [] =>
        applyColor this (str "undefined") [UNDERLINE] ++ str_nl ++
        applyColor this [] [GREY]
    end.

Definition formatObject (obj : JsValue) : jsstring :=
  join (str ", ")
    (map (fun kv => fst kv ++ str " = " ++ Js.template (Js.stringify (snd kv)))
       (Js.entries obj)).

(** The payload part pushed for a non-empty argument list. *)
Definition payload (this : t) (first : JsValue) (rest : list JsValue) : jsstring :=
  match first with
  | VError e => formatError this e
  | VObj _ | VArr _ => formatObject first
  | _ => applyColor this (join (str " ") (map Js.String (first :: rest))) [GREY]
  end.

(** The local [parts] of [#buildMessage] before a payload is pushed: scope
    tag, pointer, badge and padded label. *)
Definition parts (this : t) (type : LogType) : list jsstring :=
  getMeta this ++
  [applyColor this (badge type ++ str " ") [colour_of type];
   applyColor this (label type) [colour_of type; UNDERLINE] ++
   repeat_str (str " ")
     (Z.to_nat (Z.max 0 (Z.of_nat (f_longest this) - Z.of_nat (length (label type)))))].

Definition buildMessage (this : t) (type : LogType) (args : list JsValue) : jsstring :=
  match args with
  | [] => join (str " ") (parts this type)
  | first :: rest => join (str " ") (parts this type ++ [payload this first rest])
  end.

Definition log (this : t) (type : LogType) (args : list JsValue) (w : World) : World :=
  if (rank (level type) <? rank (f_level this))%Z then w
  else write (stream type)
         (filterSecrets this (buildMessage this type args) ++ str_nl) w.

Definition success this args := log this (TYPES Utils.success) args.
Definition error this args := log this (TYPES Utils.error) args.
Definition fatal this args := log this (TYPES Utils.fatal) args.
Definition trace this args := log this (TYPES Utils.trace) args.
Definition debug this args := log this (TYPES Utils.debug) args.
Definition warn this args := log this (TYPES Utils.warn) args.
Definition info this args := log this (TYPES Utils.info) args.

(** The logging method of a given name. *)
Definition method (name : LogTypeName) : t → list JsValue → World → World :=
  match name with
  | Utils.success => success
  | Utils.warn => warn
  | Utils.error => error
  | Utils.fatal => fatal
  | Utils.trace => trace
  | Utils.debug => debug
  | Utils.info => info
  end.

(** *** Instances as heap objects

    Builder methods are called on a reference and return a reference; the
    heap maps references to the instances allocated so far. *)

Abbreviation Heap := (list t).
Abbreviation ref := nat.

Definition alloc (h : Heap) (obj : t) : Heap * ref := (h ++ [obj], length h).

Definition scope (env : Env) (h : Heap) (this : ref) (scope : jsstring)
    : option (Heap * ref) :=
  obj ← h !! this;
  Some (alloc h (new env (spread (options obj)
    {| v_scope := Some (Some scope); v_level := None;
       v_secrets := None; v_useColors := None |}))).

Definition level (env : Env) (h : Heap) (this : ref) (level : Level)
    : option (Heap * ref) :=
  obj ← h !! this;
  Some (alloc h (new env (spread (options obj)
    {| v_scope := None; v_level := Some (Some level);
       v_secrets := None; v_useColors := None |}))).

Definition secrets (env : Env) (h : Heap) (this : ref) (secrets : list jsstring)
    : option (Heap * ref) :=
  obj ← h !! this;
  Some (alloc h (new env (spread (options obj)
    {| v_scope := None; v_level := None;
       v_secrets := Some (Some (f_secrets obj ++ secrets)); v_useColors := None |}))).

Definition clone (env : Env) (h : Heap) (this : ref) (overrides : Overrides)
    : option (Heap * ref) :=
  obj ← h !! this;
  Some (alloc h (new env (spread (options obj) overrides))).

(** [pika(options)] *)
Definition pika (env : Env) (h : Heap) (options : PikaOptions) : Heap * ref :=
  alloc h (new env options).

(** A call of the logging method [name] on the instance behind [this]. *)
Definition call (h : Heap) (this : ref) (name : LogTypeName)
    (args : list JsValue) (w : World) : option World :=
  obj ← h !! this;
  Some (method name obj args w).

(** The four builder calls. *)
Inductive Builder :=
| Scope (scope : jsstring)
| Level_ (level : Level)
| Secrets (secrets : list jsstring)
| Clone (overrides : Overrides).

Definition build (env : Env) (h : Heap) (this : ref) (b : Builder)
    : option (Heap * ref) :=
  match b with
  | Scope s => scope env h this s
  | Level_ l => level env h this l
  | Secrets ss => secrets env h this ss
  | Clone ov => clone env h this ov
  end.

(** [this.b1(...).b2(...)...]: each builder is called on the instance the
    previous one returned. *)
Fixpoint chain (env : Env) (h : Heap) (this : ref) (bs : list Builder)
    : option (Heap * ref) :=
  match bs with
  | [] => Some (h, this)
  | b :: bs' => '(h', r) ← build env h this b; chain env h' r bs'
  end.

(** The instance a chain of calls ends on. *)
Definition configuration (result : option (Heap * ref)) : option t :=
  '(h, r) ← result; h !! r.

(** An object literal without keys. *)
Definition no_overrides : Overrides :=
  {| v_scope := None; v_level := None; v_secrets := None; v_useColors := None |}.

End Pika.

(** ** More of the host language *)

Module JsArray.

(** [t.split(s)] for a string separator: [skip] counts the code units of
    the current match still to be dropped; the piece being read is the head
    of the result. *)
Fixpoint split_go (s : jsstring) (skip : nat) (t : jsstring) : list jsstring :=
  match t with
  | [] => [[]]
  | c :: t' =>
      match skip with
      | S k => split_go s k t'
      | O =>
          if prefixb s t then [] :: split_go s (length s - 1) t'
          else match split_go s 0 t' with
               | [] => [[c]]
               | x :: rest => (c :: x) :: rest
               end
      end
  end.

(** With the empty separator the text is cut into its code units. *)
Definition split (s t : jsstring) : list jsstring :=
  match s with
  | [] => map (fun c => [c]) t
  | _ :: _ => split_go s 0 t
  end.

(** [items.join(sep)]: [null] and [undefined] elements contribute nothing. *)
Definition array_join (sep : jsstring) (items : list JsValue) : jsstring :=
  join sep (map (fun x => match x with
                          | VUndefined | VNull => []
                          | _ => Js.String x
                          end) items).

End JsArray.

(** ** index.ts: the scope derived from the call stack *)

Module Introspection.

(** What [CallSite.getFileName()] returns for a frame. *)
Inductive FileName :=
| Null
| Undefined
| File (path : jsstring).

(** [a === b] *)
Definition same (a b : FileName) : bool :=
  match a, b with
  | Null, Null => true
  | Undefined, Undefined => true
  | File p, File q => (length p =? length q)%nat && prefixb p q
  | _, _ => false
  end.

Definition anonymous : jsstring := str "anonymous".

Section GetFilename.

(** [parse(p).name] of node:path, and [fileURLToPath] of node:url, which
    throws ([None]) on a URL it does not accept. *)
Variable parse_name : jsstring → jsstring.
Variable fileURLToPath : jsstring → option jsstring.

(** [#getFilename()], from the file names of the frames of the captured
    stack ([None] when no stack was captured).  An exception is caught and
    gives ["anonymous"]. *)
Definition getFilename (stack : option (list FileName)) : jsstring :=
  match stack with
  | None | Some [] => anonymous
  | Some (currentFile :: rest) =>
      match List.find (fun callSite => negb (same callSite currentFile)) rest with
      | None => anonymous
      | Some externalCaller =>
          match externalCaller with
          | File (c :: p) =>
              if prefixb (str "file://") (c :: p)
              then match fileURLToPath (c :: p) with
                   | Some q => parse_name q
                   | None => anonymous
                   end
              else parse_name (c :: p)
          | _ => anonymous
          end
      end
  end.

(** [_filename()] of the first revision. *)
Definition _filename (stack : option (list FileName)) : jsstring :=
  match stack with
  | None | Some [] => anonymous
  | Some (first :: rest) =>
      match List.find (fun filePath => negb (same filePath first)) (first :: rest) with
      | Some (File (c :: p)) => parse_name (c :: p)
      | _ => anonymous
      end
  end.

End GetFilename.

End Introspection.

(** ** types.ts, the helpers of the first revision *)

Module Types.

Import Utils.

(** The members of the enum [Colour]; grey is another code here. *)
Definition code (c : Colour) : jsstring :=
  ESC :: match c with
         | RED => str "[31m"
         | BOLD => str "[1m"
         | GREY => str "[38m"
         | BLUE => str "[34m"
         | CYAN => str "[36m"
         | RESET => str "[0m"
         | GREEN => str "[32m"
         | YELLOW => str "[33m"
         | MAGENTA => str "[35m"
         | UNDERLINE => str "[4m"
         end.

(** [Object.values(Colour)] *)
Definition Colour_values : list jsstring :=
  map code [RED; BOLD; GREY; BLUE; CYAN; RESET; GREEN; YELLOW; MAGENTA; UNDERLINE].

Definition string_eqb (a b : jsstring) : bool :=
  (length a =? length b)%nat && prefixb a b.

Definition isColour (input : JsValue) : bool :=
  match input with
  | VStr s => existsb (string_eqb s) Colour_values
  | _ => false
  end.

Inductive Thrown := TypeError | RangeError.

Definition warning (x : JsValue) : jsstring :=
  str "Invalid colour: " ++ Js.String x ++ str " is not a valid `Colour` enum value".

(** The filter of [colour]: the messages passed to [console.warn], in
    order, and the styles kept. *)
Fixpoint validate (colours : list JsValue) : list jsstring * list JsValue :=
  match colours with
  | [] => ([], [])
  | x :: rest =>
      let '(warnings, valid) := validate rest in
      if isColour x then (warnings, x :: valid)
      else (warning x :: warnings, valid)
  end.

(** [colour(input, ...colours)]: throws when [input] is not a string,
    otherwise gives the warnings and the styled text. *)
Definition colour (input : JsValue) (colours : list JsValue)
    : Thrown + (list jsstring * jsstring) :=
  match input with
  | VStr s =>
      let '(warnings, valid) := validate colours in
      inr (warnings, JsArray.array_join [] valid ++ s ++ code RESET)
  | _ => inl TypeError
  end.

Definition _mk (label : jsstring) (level : Level) (badge : jsstring)
    (colour : Colour) (stream : option Stream) : LogType :=
  {| label := label; level := level; badge := badge; colour_of := colour;
     stream := default Stdout stream |}.

Definition TYPES (name : LogTypeName) : LogType :=
  match name with
  | success => _mk (str "success") INFO Figure.TICK GREEN None
  | warn => _mk (str "warn") WARN Figure.WARNING YELLOW None
  | error => _mk (str "error") ERROR Figure.CROSS RED (Some Stderr)
  | fatal => _mk (str "fatal") FATAL Figure.CROSS RED (Some Stderr)
  | trace => _mk (str "trace") TRACE Figure.ELLIPSIS BLUE None
  | debug => _mk (str "debug") DEBUG Figure.INFO RED None
  | info => _mk (str "info") INFO Figure.INFO BLUE None
  end.

(** [Object.entries(TYPES)], in insertion order. *)
Definition TYPES_entries : list (LogTypeName * LogType) :=
  map (fun name => (name, TYPES name)) [success; warn; error; fatal; trace; debug; info].

End Types.

(** ** The first revision of the builders

    The oldest revision of index.ts kept in the repository assigns the
    private fields of the receiver and returns [this]; it is embedded here
    only to compare it with the builders above. *)

Module Legacy.

Import Utils.

Record t := {
  f_scope : jsstring;
  f_level : Level;
  f_longest : nat;
  f_secrets : list jsstring;
}.

Abbreviation Heap := (list t).

Definition scope (h : Heap) (this : nat) (scope : jsstring) : option (Heap * nat) :=
  obj ← h !! this;
  Some (<[this := {| f_scope := scope; f_level := f_level obj;
                     f_longest := f_longest obj; f_secrets := f_secrets obj |}]> h,
        this).

Definition level (h : Heap) (this : nat) (level : Level) : option (Heap * nat) :=
  obj ← h !! this;
  Some (<[this := {| f_scope := f_scope obj; f_level := level;
                     f_longest := f_longest obj; f_secrets := f_secrets obj |}]> h,
        this).

Definition secrets (h : Heap) (this : nat) (secrets : list jsstring)
    : option (Heap * nat) :=
  obj ← h !! this;
  Some (<[this := {| f_scope := f_scope obj; f_level := f_level obj;
                     f_longest := f_longest obj; f_secrets := secrets |}]> h,
        this).

(** [Partial<PikaOptions>] of this revision ([interactive] is never read). *)
Record Options := {
  o_scope : option jsstring;
  o_level : option Level;
  o_secrets : option (list jsstring);
}.

Definition _getLongestLabel : nat :=
  fold_left (fun maxLength entry =>
               match label (snd entry) with
               | [] => maxLength
               | _ :: _ => Nat.max maxLength (length (label (snd entry)))
               end)
    Types.TYPES_entries 0%nat.

(** [new Pika(options)]; [filename] is what [this._filename()] returns. *)
Definition new (filename : jsstring) (options : Options) : t :=
  {| f_scope := default filename (o_scope options);
     f_level := default INFO (o_level options);
     f_longest := _getLongestLabel;
     f_secrets := default [] (o_secrets options) |}.

Definition secure : jsstring := str "[secure]".

Definition _filterSecrets (this : t) (input : jsstring) : jsstring :=
  if (length (f_secrets this) =? 0)%nat then input
  else fold_left (fun safe secret => join secure (JsArray.split secret safe))
         (f_secrets this) input.

Definition _formatScope (this : t) : jsstring :=
  str "[" ++ f_scope this ++ str "]".

(** A call of [colour] from this file: the input is a string and the
    styles are members of [Colour], so the call neither throws nor warns. *)
Definition paint (input : jsstring) (colours : list Colour) : jsstring :=
  match Types.colour (VStr input) (map (fun c => VStr (Types.code c)) colours) with
  | inr (_, text) => text
  | inl _ => []
  end.

Definition _meta (this : t) : list jsstring :=
  let meta := [_formatScope this] in
  if negb (length meta =? 0)%nat
  then map (fun item => paint item [GREY]) (meta ++ [Figure.POINTER_SMALL])
  else meta.

(** What the three tests on [args[0]] push, in order. *)
Definition pushed (args : list JsValue) : list jsstring :=
  let first := default VUndefined (head args) in
  match first with
  | VError e =>
      match err_stack e with
      | Some stack =>
          match split1 10 stack with
          | name :: rest =>
              [paint name [UNDERLINE] ++ str_nl; paint (join str_nl rest) [GREY]]
          | [] => [paint (str "undefined") [UNDERLINE] ++ str_nl; paint [] [GREY]]
          end
      | None => []
      end
  | VArr _ | VObj _ | VDate _ _ | VRegExp _ _ =>
      [join (str ", ")
         (map (fun kv => fst kv ++ str " = " ++ [34] ++ Js.String (snd kv) ++ [34])
            (Js.entries first))]
  | VStr _ => [paint (JsArray.array_join (str " ") args) [GREY]]
  | _ => []
  end.

(** [_build(type, ...args)]; [None] is the RangeError of [repeat] with a
    negative count. *)
Definition _build (this : t) (type : LogType) (args : list JsValue) : option jsstring :=
  let count := (Z.of_nat (f_longest this) - Z.of_nat (length (label type)))%Z in
  if (count <? 0)%Z then None
  else
    Some (join (str " ")
      (_meta this ++
       [paint (badge type ++ str " ") [colour_of type];
        paint (label type) [colour_of type; UNDERLINE] ++
        repeat_str (str " ") (Z.to_nat count)] ++
       pushed args)).

Definition _log (this : t) (type : LogType) (args : list JsValue) (w : World)
    : option World :=
  if (rank (Utils.level type) >=? rank (f_level this))%Z
  then line ← _build this type args;
       Some (write (stream type) (_filterSecrets this line ++ str_nl) w)
  else Some w.

(** The seven logging methods. *)
Definition method (name : LogTypeName) (this : t) (args : list JsValue) (w : World)
    : option World :=
  _log this (Types.TYPES name) args w.

End Legacy.

(** ** The loggers of the README and of the scenarios *)

Module Scenario.

Import Utils.

(** A process with none of the colour variables set and no terminal. *)
Definition env : Env :=
  {| NO_COLOR := None; NODE_DISABLE_COLORS := None; FORCE_COLOR := None;
     isTTY := None; getFilename := str "test" |}.

Definition no_options : Pika.PikaOptions :=
  {| Pika.o_scope := None; Pika.o_level := None;
     Pika.o_secrets := None; Pika.o_useColors := None |}.

(** [pika().scope("main").level(Level.TRACE).secrets("password123", "apiKey")] *)
Definition readme : option (Pika.Heap * Pika.ref) :=
  let '(h, r) := Pika.pika env [] no_options in
  '(h, r) ← Pika.scope env h r (str "main");
  '(h, r) ← Pika.level env h r TRACE;
  Pika.secrets env h r [str "password123"; str "apiKey"].

(** The instance the chain above returns. *)
Definition logger : Pika.t :=
  {| Pika.f_scope := str "main"; Pika.f_level := TRACE; Pika.f_longest := 7;
     Pika.f_useColors := false;
     Pika.f_secrets := [str "password123"; str "apiKey"] |}.

(** [pika({ scope: "main", useColors: false })] *)
Definition plain : Pika.t :=
  Pika.new env
    {| Pika.o_scope := Some (str "main"); Pika.o_level := None;
       Pika.o_secrets := None; Pika.o_useColors := Some false |}.

(** [pika({ scope: "main", secrets: ["RED"], useColors: false })] *)
Definition red : Pika.t :=
  Pika.new env
    {| Pika.o_scope := Some (str "main"); Pika.o_level := None;
       Pika.o_secrets := Some [str "RED"]; Pika.o_useColors := Some false |}.

(** [pika({ scope: "main", secrets: ["sk-ADMIN-TOKEN-x", "xREDx"], useColors: false })] *)
Definition tokens : Pika.t :=
  Pika.new env
    {| Pika.o_scope := Some (str "main"); Pika.o_level := None;
       Pika.o_secrets := Some [str "sk-ADMIN-TOKEN-x"; str "xREDx"];
       Pika.o_useColors := Some false |}.

Definition token_line : jsstring := str "auth sk-ADMIN-TOKEN-x for xREDx".

Definition quiet : World := {| stdout := []; stderr := [] |}.

Definition password_line : jsstring :=
  str "Tried to log in admin account with password password123".

(** [{ endpoint: "/users/profile", responseTime: "700ms" }] *)
Definition profile : JsValue :=
  VObj [(str "endpoint", VStr (str "/users/profile"));
        (str "responseTime", VStr (str "700ms"))].

(** [endpoint = "/users/profile"] *)
Definition endpoint_pair : jsstring :=
  str "endpoint = " ++ [34] ++ str "/users/profile" ++ [34].

(** [responseTime = "700ms"] *)
Definition responseTime_pair : jsstring :=
  str "responseTime = " ++ [34] ++ str "700ms" ++ [34].

(** An error as V8 creates it for [new Error("boom")] thrown from main.ts. *)
Definition boom : JsError :=
  {| err_name := str "Error"; err_message := str "boom";
     err_stack := Some (str "Error: boom" ++ str_nl ++ str "    at main.ts:1:7") |}.

End Scenario.

(** ** Facts about the string primitives *)

Section StringFacts.

Implicit Types s p t u : jsstring.

Lemma prefixb_prefix s t : prefixb s t = true ↔ s `prefix_of` t.
Proof.
  revert t. induction s as [|a s IH]; intros [|c t]; simpl.
  - split; [intros _; apply prefix_nil | done].
  - split; [intros _; apply prefix_nil | done].
  - split; [done | intros H; by apply prefix_nil_not in H].
  - rewrite andb_true_iff, N.eqb_eq, IH. split.
    + intros [-> H]. by apply prefix_cons.
    + intros H. split; [by apply prefix_cons_inv_1 in H | by apply prefix_cons_inv_2 in H].
Qed.

Lemma prefixb_app s r : prefixb s (s ++ r) = true.
Proof. apply prefixb_prefix. by exists r. Qed.

Lemma occurs_prefix s t : s `prefix_of` t → occurs s t.
Proof. intros [k ->]. by exists [], k. Qed.

Lemma occurs_cons s c t : occurs s t → occurs s (c :: t).
Proof. intros (pre & post & ->). by exists (c :: pre), post. Qed.

Lemma occurs_app_r s k t : occurs s t → occurs s (k ++ t).
Proof. intros (pre & post & ->). exists (k ++ pre), post. by rewrite <- app_assoc. Qed.

Lemma occurs_app_l s k t : occurs s t → occurs s (t ++ k).
Proof.
  intros (pre & post & ->). exists pre, (post ++ k). by rewrite <- !app_assoc.
Qed.

Lemma occurs_cons_inv s c t :
  occurs s (c :: t) → s `prefix_of` (c :: t) ∨ occurs s t.
Proof.
  intros ([|d pre] & post & E); simpl in E.
  - left. by exists post.
  - right. injection E as _ ->. by exists pre, post.
Qed.

Lemma occurs_nil_inv s : occurs s [] → s = [].
Proof.
  intros (pre & post & E). symmetry in E.
  apply app_eq_nil in E as [_ E]. by apply app_eq_nil in E as [E _].
Qed.

Lemma includes_occurs s t : includes s t = true ↔ occurs s t.
Proof.
  induction t as [|c t IH]; simpl.
  - rewrite orb_false_r, prefixb_prefix. split; [apply occurs_prefix|].
    intros H. apply occurs_nil_inv in H as ->. apply prefix_nil.
  - rewrite orb_true_iff, prefixb_prefix, IH. split.
    + intros [H|H]; [by apply occurs_prefix | by apply occurs_cons].
    + apply occurs_cons_inv.
Qed.

End StringFacts.

(** ** The scan performed by [replaceAll] *)

Section ReplaceAll.

Implicit Types s p t u r : jsstring.

Lemma replaceAll_go_nil s p k : replaceAll_go s p k [] = [].
Proof. by destruct k. Qed.

Lemma replaceAll_go_skip s p k t :
  replaceAll_go s p k t = replaceAll_go s p 0 (drop k t).
Proof.
  revert k. induction t as [|c t IH]; intros [|k]; try done.
  simpl drop. rewrite <- IH. done.
Qed.

Lemma replaceAll_go_match s p r :
  s ≠ [] → replaceAll_go s p 0 (s ++ r) = p ++ replaceAll_go s p 0 r.
Proof.
  destruct s as [|a s]; [done | intros _].
  pose proof (prefixb_app (a :: s) r) as E. simpl app in *.
  cbn [replaceAll_go]. rewrite E, replaceAll_go_skip.
  replace (length (a :: s) - 1)%nat with (length s) by (simpl; lia).
  by rewrite drop_app_length.
Qed.

Lemma replaceAll_go_step s p c t :
  prefixb s (c :: t) = false →
  replaceAll_go s p 0 (c :: t) = c :: replaceAll_go s p 0 t.
Proof. intros H. cbn [replaceAll_go]. by rewrite H. Qed.

(** Induction along the scan: either the pattern matches at the head and
    the scan resumes after it, or one code unit is copied. *)
Lemma scan_ind a s (P : jsstring → Prop) :
  P [] →
  (∀ r, P r → P ((a :: s) ++ r)) →
  (∀ c t, prefixb (a :: s) (c :: t) = false → P t → P (c :: t)) →
  ∀ t, P t.
Proof.
  intros Hnil Hmatch Hstep t.
  remember (length t) as n eqn:Hn. revert t Hn.
  induction n as [n IH] using lt_wf_ind. intros [|c t] Hn; [done|].
  destruct (prefixb (a :: s) (c :: t)) eqn:E.
  - apply prefixb_prefix in E as [r E]. rewrite E. apply Hmatch.
    apply (IH (length r)); [|done].
    subst n. rewrite E, length_app. simpl. lia.
  - apply Hstep; [done|]. apply (IH (length t)); [subst n; simpl; lia | done].
Qed.

(** A text without the pattern is returned as it is. *)
Lemma replaceAll_absent s p t : ¬ occurs s t → replaceAll s p t = t.
Proof.
  destruct s as [|a s].
  - intros H. destruct H. by exists [], t.
  - unfold replaceAll. induction t as [|c t IH]; [done|].
    intros H. rewrite replaceAll_go_step.
    + f_equal. apply IH. intros H'. by apply H, occurs_cons.
    + apply not_true_iff_false. intros E. apply H, occurs_prefix.
      by apply prefixb_prefix.
Qed.

(** A text with the pattern comes back with the replacement in it. *)
Lemma replaceAll_present s p t : occurs s t → occurs p (replaceAll s p t).
Proof.
  destruct s as [|a s].
  - intros _. unfold replaceAll. by exists [], (flat_map (λ c, c :: p) t).
  - unfold replaceAll. induction t as [|c t IH]; intros H.
    + by apply occurs_nil_inv in H.
    + destruct (prefixb (a :: s) (c :: t)) eqn:E.
      * apply prefixb_prefix in E as [r ->].
        rewrite replaceAll_go_match by done. by exists [], (replaceAll_go (a :: s) p 0 r).
      * rewrite replaceAll_go_step by done. apply occurs_cons, IH.
        apply occurs_cons_inv in H as [H|H]; [|done].
        apply prefixb_prefix in H. congruence.
Qed.

End ReplaceAll.

(** ** [join] and [split] *)

Section JoinSplit.

Implicit Types s p t sep : jsstring.
Implicit Types gs : list jsstring.

Lemma join_cons sep x gs :
  gs ≠ [] → join sep (x :: gs) = x ++ sep ++ join sep gs.
Proof. by destruct gs. Qed.

Lemma join_cons_head sep c g gs :
  join sep ((c :: g) :: gs) = c :: join sep (g :: gs).
Proof. by destruct gs. Qed.

Lemma join_head_prefix sep g gs : g `prefix_of` join sep (g :: gs).
Proof.
  destruct gs as [|y gs]; [done|]. rewrite join_cons by done. by eexists.
Qed.

Lemma join_snoc sep gs x :
  gs ≠ [] → join sep (gs ++ [x]) = join sep gs ++ sep ++ x.
Proof.
  induction gs as [|y gs IH]; [done | intros _].
  destruct gs as [|z gs]; [done|].
  change ((y :: z :: gs) ++ [x]) with (y :: ((z :: gs) ++ [x])).
  rewrite !join_cons by done. rewrite IH by done. by rewrite <- !app_assoc.
Qed.

Lemma split1_nonempty c t : split1 c t ≠ [].
Proof.
  destruct t as [|d t]; [done|]. simpl.
  destruct (d =? c); [done|]. by destruct (split1 c t).
Qed.

(** Joining the lines of a text with the separator gives the text back. *)
Lemma join_split1 c t : join [c] (split1 c t) = t.
Proof.
  induction t as [|d t IH]; [done|]. simpl.
  destruct (d =? c) eqn:E.
  - apply N.eqb_eq in E as ->. rewrite join_cons by apply split1_nonempty.
    simpl. by rewrite IH.
  - pose proof (split1_nonempty c t) as Hne.
    destruct (split1 c t) as [|x rest]; [done|].
    rewrite join_cons_head. by rewrite IH.
Qed.

(** No line contains the separator. *)
Lemma split1_lines c t : Forall (λ line, c ∉ line) (split1 c t).
Proof.
  induction t as [|d t IH]; simpl.
  - constructor; [apply not_elem_of_nil | constructor].
  - destruct (d =? c) eqn:E.
    + constructor; [apply not_elem_of_nil | done].
    + pose proof (split1_nonempty c t) as Hne.
      destruct (split1 c t) as [|x rest]; [done|].
      inversion IH as [|? ? Hx Hrest]; subst. constructor; [|done].
      apply not_elem_of_cons. split; [|done].
      intros ->. by rewrite N.eqb_refl in E.
Qed.

(** [replaceAll] cuts the text at the matches it finds, scanning from the
    left, and puts the replacement where each match was. *)
Lemma replaceAll_pieces s p t :
  s ≠ [] →
  ∃ gs, gs ≠ [] ∧ t = join s gs ∧ replaceAll s p t = join p gs ∧
        Forall (λ g, ¬ occurs s g) gs.
Proof.
  destruct s as [|a s]; [done | intros _]. unfold replaceAll.
  induction t as [|r IH|c t E IH] using (scan_ind a s).
  - exists [[]]. repeat split; [done|]. constructor; [|done].
    intros H. by apply occurs_nil_inv in H.
  - destruct IH as (gs & Hne & Hr & Hout & Hfree).
    exists ([] :: gs). rewrite replaceAll_go_match by done.
    rewrite !join_cons by done. simpl. rewrite <- Hr, <- Hout.
    repeat split; [done|]. constructor; [|done].
    intros H. by apply occurs_nil_inv in H.
  - destruct IH as (gs & Hne & Hr & Hout & Hfree).
    destruct gs as [|g gs]; [done|].
    exists ((c :: g) :: gs). rewrite replaceAll_go_step by done.
    rewrite !join_cons_head, <- Hr, <- Hout. repeat split; [done|].
    inversion Hfree as [|? ? Hg Hgs]; subst. constructor; [|done].
    intros H. apply occurs_cons_inv in H as [H|H]; [|done].
    assert ((a :: s) `prefix_of` (c :: join (a :: s) (g :: gs))) as H'.
    { etrans; [exact H|]. apply prefix_cons, join_head_prefix. }
    apply prefixb_prefix in H'. congruence.
Qed.

End JoinSplit.

(** ** Occurrences across a replacement *)

Section Overlaps.

Import Overlap.

Implicit Types s p t u x y : jsstring.

Lemma occurs_trans (a b c : jsstring) : occurs a b → occurs b c → occurs a c.
Proof.
  intros (pre & post & ->) (pre' & post' & ->).
  exists (pre' ++ pre), (post ++ post'). by rewrite <- !app_assoc.
Qed.

Lemma occurs_join sep x (pieces : list jsstring) :
  x ∈ pieces → occurs x (join sep pieces).
Proof.
  induction pieces as [|y pieces IH]; [by intros ?%elem_of_nil|].
  intros [->|Hx]%elem_of_cons.
  - apply occurs_prefix, join_head_prefix.
  - destruct pieces as [|z pieces]; [by apply elem_of_nil in Hx|].
    rewrite join_cons by done. by apply occurs_app_r, occurs_app_r, IH.
Qed.

Lemma eqb_refl (a : jsstring) : eqb a a = true.
Proof.
  unfold eqb. rewrite Nat.eqb_refl. apply prefixb_prefix. exists []. by rewrite app_nil_r.
Qed.

Lemma prefix_app_cases u x y :
  u `prefix_of` x ++ y → u `prefix_of` x ∨ ∃ u2, u = x ++ u2 ∧ u2 `prefix_of` y.
Proof.
  revert u. induction x as [|c x IH]; intros u H.
  - right. by exists u.
  - destruct u as [|d u]; [left; apply prefix_nil|]. simpl in H.
    pose proof (prefix_cons_inv_1 _ _ _ _ H) as ->. apply prefix_cons_inv_2 in H.
    destruct (IH u H) as [Hl|(u2 & -> & H2)].
    + left. by apply prefix_cons.
    + right. by exists u2.
Qed.

(** An occurrence in a concatenation lies in one of the two parts or
    straddles the seam. *)
Lemma occurs_app_cases u x y :
  occurs u (x ++ y) →
  occurs u x ∨ occurs u y ∨
  ∃ u1 u2, u = u1 ++ u2 ∧ u1 ≠ [] ∧ u2 ≠ [] ∧ u1 `suffix_of` x ∧ u2 `prefix_of` y.
Proof.
  induction x as [|c x IH]; intros H.
  - right. by left.
  - simpl in H. apply occurs_cons_inv in H as [H|H].
    + change (c :: x ++ y) with ((c :: x) ++ y) in H.
      apply prefix_app_cases in H as [H|(u2 & -> & H2)].
      * left. by apply occurs_prefix.
      * destruct u2 as [|d u2].
        -- left. rewrite app_nil_r. exists [], []. by rewrite app_nil_r.
        -- right. right. exists (c :: x), (d :: u2). split_and!; try done.
    + destruct (IH H) as [H1|[H2|(u1 & u2 & -> & Hn1 & Hn2 & Hs & Hp)]].
      * left. by apply occurs_cons.
      * right. by left.
      * right. right. exists u1, u2. split_and!; try done. by apply suffix_cons_r.
Qed.

(** The decision procedure finds every overlap. *)
Lemma overlapsb_complete u p : overlaps u p → overlapsb u p = true.
Proof.
  unfold overlapsb.
  intros [H|[H|[(w & Hw & [a ->] & [b ->])|(w & Hw & [b ->] & [a ->])]]].
  - apply includes_occurs in H. by rewrite H.
  - apply includes_occurs in H. rewrite H. by rewrite orb_true_r.
  - apply orb_true_iff. right. apply existsb_exists. exists (length w). split.
    + apply in_seq. rewrite !length_app. destruct w; [done|]. cbn [length]. lia.
    + apply orb_true_iff. left.
      replace (length (a ++ w) - length w)%nat with (length a)
        by (rewrite length_app; lia).
      rewrite drop_app_length, take_app_length. apply eqb_refl.
  - apply orb_true_iff. right. apply existsb_exists. exists (length w). split.
    + apply in_seq. rewrite !length_app. destruct w; [done|]. cbn [length]. lia.
    + apply orb_true_iff. right.
      replace (length (a ++ w) - length w)%nat with (length a)
        by (rewrite length_app; lia).
      rewrite drop_app_length, take_app_length. apply eqb_refl.
Qed.

(** An occurrence of [u] in pieces joined by [p] lies within one piece,
    when [u] does not overlap [p]. *)
Lemma occurs_join_piece u p (gs : list jsstring) :
  u ≠ [] → ¬ overlaps u p → occurs u (join p gs) → ∃ g, g ∈ gs ∧ occurs u g.
Proof.
  intros Hu Hno. induction gs as [|g gs IH]; intros H.
  - by apply occurs_nil_inv in H.
  - destruct gs as [|g' gs].
    + exists g. split; [apply list_elem_of_here | done].
    + rewrite join_cons in H by done.
      apply occurs_app_cases in H as [H|[H|(u1 & u2 & -> & Hn1 & Hn2 & Hs & Hp)]].
      * exists g. split; [apply list_elem_of_here | done].
      * apply occurs_app_cases in H as [H|[H|(u1 & u2 & -> & Hn1 & Hn2 & Hs & Hp)]].
        -- destruct Hno. by left.
        -- destruct (IH H) as (g0 & Hg0 & Hocc). exists g0.
           split; [by apply list_elem_of_further | done].
        -- destruct Hno. right. right. right. exists u1.
           split_and!; [done | by exists u2 | done].
      * apply prefix_app_cases in Hp as [Hp|(u3 & -> & _)].
        -- destruct Hno. right. right. left. exists u2.
           split_and!; [done | by exists u1 | done].
        -- destruct Hno. right. left. by exists u1, u3.
Qed.

(** With the empty pattern the text is cut into its code units. *)
Lemma replaceAll_empty_join p t :
  replaceAll [] p t = join p ([] :: map (λ c, [c]) t ++ [[]]).
Proof.
  assert (flat_map (λ c, c :: p) t = join p (map (λ c, [c]) t ++ [[]])) as E.
  { induction t as [|c t IH]; [done|].
    change (map (λ c, [c]) (c :: t) ++ [[]]) with ([c] :: (map (λ c, [c]) t ++ [[]])).
    rewrite join_cons by (by destruct t). simpl. by rewrite IH. }
  unfold replaceAll. rewrite E.
  change ([] :: map (λ c, [c]) t ++ [[]]) with ([] :: (map (λ c, [c]) t ++ [[]])).
  by rewrite join_cons by (by destruct t).
Qed.

(** Replacing [s] by [p] never creates an occurrence of a non-empty
    string that does not overlap [p]. *)
Lemma replaceAll_no_new s p u t :
  u ≠ [] → ¬ overlaps u p → occurs u (replaceAll s p t) → occurs u t.
Proof.
  intros Hu Hno H. destruct s as [|a s].
  - rewrite replaceAll_empty_join in H.
    apply occurs_join_piece in H as (g & Hg & Hocc); [|done..].
    apply elem_of_cons in Hg as [->|Hg]; [by apply occurs_nil_inv in Hocc|].
    apply elem_of_app in Hg as [Hg|Hg].
    + apply list_elem_of_fmap in Hg as (c & -> & Hc).
      eapply occurs_trans; [exact Hocc|].
      apply list_elem_of_split in Hc as (pre & post & ->). by exists pre, post.
    + apply list_elem_of_singleton in Hg as ->. by apply occurs_nil_inv in Hocc.
  - destruct (replaceAll_pieces (a :: s) p t) as (gs & Hne & Ht & Hout & Hfree); [done|].
    rewrite Hout in H. apply occurs_join_piece in H as (g & Hg & Hocc); [|done..].
    eapply occurs_trans; [exact Hocc|]. rewrite Ht. by apply occurs_join.
Qed.

(** After the replacement a non-empty pattern that does not overlap the
    replacement is gone. *)
Lemma replaceAll_gone s p t :
  s ≠ [] → ¬ overlaps s p → ¬ occurs s (replaceAll s p t).
Proof.
  intros Hs Hno H.
  destruct (replaceAll_pieces s p t) as (gs & Hne & Ht & Hout & Hfree); [done|].
  rewrite Hout in H. apply occurs_join_piece in H as (g & Hg & Hocc); [|done..].
  rewrite Forall_forall in Hfree. by apply (Hfree g).
Qed.

End Overlaps.

(** ** Redaction *)

Section Redaction.

Import Utils Pika.

Implicit Types s t : jsstring.
Implicit Types l : list jsstring.

(** One pass over a list of secrets, as the reducer of [#filterSecrets]. *)
Local Abbreviation redact l t :=
  (fold_left (λ sanitized secret, replaceAll secret REDACTED sanitized) l t).

Lemma filterSecrets_fold this t :
  filterSecrets this t = redact (f_secrets this) t.
Proof. unfold filterSecrets. by destruct (f_secrets this). Qed.

Lemma REDACTED_nonempty : REDACTED ≠ [].
Proof. done. Qed.

Lemma apart_from_placeholder_spec s :
  apart_from_placeholder s = true → s ≠ [] ∧ ¬ Overlap.overlaps s REDACTED.
Proof.
  destruct s as [|a s]; [done|]. unfold apart_from_placeholder.
  intros H%negb_true_iff. split; [done|].
  intros Ho. apply overlapsb_complete in Ho. congruence.
Qed.

Lemma redact_absent l t :
  Forall (λ s, ¬ occurs s t) l → redact l t = t.
Proof.
  induction l as [|s l IH]; [done|]. intros H.
  inversion H as [|? ? Hs Hl]; subst. simpl.
  rewrite replaceAll_absent by done. by apply IH.
Qed.

Lemma redact_keeps_placeholder l t :
  occurs REDACTED t → occurs REDACTED (redact l t).
Proof.
  revert t. induction l as [|s l IH]; [done|]. intros t H. simpl. apply IH.
  destruct (includes s t) eqn:E.
  - by apply replaceAll_present, includes_occurs.
  - rewrite replaceAll_absent; [done|]. rewrite <- includes_occurs. congruence.
Qed.

Lemma redact_places_placeholder l s t :
  s ∈ l → occurs s t → occurs REDACTED (redact l t).
Proof.
  revert t. induction l as [|s' l IH]; intros t Hin Hocc.
  - by apply elem_of_nil in Hin.
  - simpl. destruct (includes s' t) eqn:E.
    + by apply redact_keeps_placeholder, replaceAll_present, includes_occurs.
    + rewrite replaceAll_absent by (rewrite <- includes_occurs; congruence).
      apply elem_of_cons in Hin as [->|Hin]; [|by apply IH].
      apply includes_occurs in Hocc. congruence.
Qed.

Lemma redact_no_new l s t :
  apart_from_placeholder s = true → ¬ occurs s t → ¬ occurs s (redact l t).
Proof.
  intros [Hs Hno]%apart_from_placeholder_spec.
  revert t. induction l as [|s' l IH]; [done|]. intros t H. simpl. apply IH.
  intros H'. by apply H, (replaceAll_no_new s' REDACTED).
Qed.

Lemma redact_removes l s t :
  s ∈ l → apart_from_placeholder s = true → ¬ occurs s (redact l t).
Proof.
  intros Hin Hc. revert t. induction l as [|s' l IH]; intros t.
  - by apply elem_of_nil in Hin.
  - simpl. apply elem_of_cons in Hin as [<-|Hin]; [|by apply IH].
    apply redact_no_new; [done|].
    apply apart_from_placeholder_spec in Hc as [Hs Hno].
    by apply replaceAll_gone.
Qed.

Lemma forallb_elem_of {A} (f : A → bool) (l : list A) x :
  forallb f l = true → x ∈ l → f x = true.
Proof.
  intros H Hx. rewrite forallb_forall in H. by apply H, list_elem_of_In.
Qed.

(** C4 (as amended).  The secrets are applied in stored order.  Each step
    scans the text from the left: a non-empty secret found at the head is
    replaced by [[REDACTED]] and the scan resumes after it, otherwise one
    code unit is copied; so the text is cut at every non-overlapping
    occurrence and the placeholder put there.  When the line contains a
    registered secret the output contains [[REDACTED]]; and a registered
    secret that is not empty and does not overlap the placeholder (neither
    occurs in the other, and no non-empty end of one is the opposite end of
    the other) does not occur in the output. *)
Theorem filterSecrets_redacts (this : Pika.t) (T S : jsstring) :
  S ∈ f_secrets this →
  filterSecrets this T =
    fold_left (λ sanitized secret, replaceAll secret REDACTED sanitized)
      (f_secrets this) T ∧
  (∀ s x c, s ≠ [] →
     replaceAll s REDACTED [] = [] ∧
     replaceAll s REDACTED (s ++ x) = REDACTED ++ replaceAll s REDACTED x ∧
     (prefixb s (c :: x) = false →
      replaceAll s REDACTED (c :: x) = c :: replaceAll s REDACTED x)) ∧
  (∀ s x, s ≠ [] →
     ∃ gs, gs ≠ [] ∧ x = join s gs ∧
           replaceAll s REDACTED x = join REDACTED gs ∧
           Forall (λ g, ¬ occurs s g) gs) ∧
  (occurs S T → occurs REDACTED (filterSecrets this T)) ∧
  (apart_from_placeholder S = true → ¬ occurs S (filterSecrets this T)).
Proof.
  intros Hin. rewrite filterSecrets_fold. split; [done|]. split; [|split; [|split]].
  - intros s x c Hs. destruct s as [|a s]; [done|]. unfold replaceAll.
    split; [done|]. split; [by apply replaceAll_go_match|].
    apply replaceAll_go_step.
  - intros s x Hs. by apply replaceAll_pieces.
  - by apply redact_places_placeholder.
  - intros Hc. by apply redact_removes.
Qed.

(** C5 (as amended).  Redacting a redacted line changes nothing whenever
    the redacted line holds none of the registered secrets; that is so, for
    every line, when every registered secret is non-empty and does not
    overlap the placeholder. *)
Theorem filterSecrets_idempotent (this : Pika.t) (T : jsstring) :
  forallb apart_from_placeholder (f_secrets this) = true ∨
  forallb (λ secret, negb (includes secret (filterSecrets this T)))
    (f_secrets this) = true →
  filterSecrets this (filterSecrets this T) = filterSecrets this T.
Proof.
  intros Hall. rewrite (filterSecrets_fold this (filterSecrets this T)).
  apply redact_absent, Forall_forall. intros s Hs. destruct Hall as [Hall|Hall].
  - rewrite filterSecrets_fold. apply redact_removes; [done|].
    by eapply forallb_elem_of.
  - intros Hocc. apply (forallb_elem_of _ _ s Hall) in Hs.
    apply includes_occurs in Hocc. rewrite Hocc in Hs. done.
Qed.

End Redaction.

(** The line [logger.info("code RED")] leaves a logger whose only secret is
    [RED]: the secret is registered, the composed line contains it, and the
    redacted line still contains it, inside the placeholder. *)
Lemma filterSecrets_leaves_secret :
  let line := Pika.buildMessage Scenario.red (Utils.TYPES Utils.info) [VStr (str "code RED")] in
  Pika.f_secrets Scenario.red ≠ [] ∧
  str "RED" ∈ Pika.f_secrets Scenario.red ∧
  occurs (str "RED") line ∧
  occurs (str "RED") (Pika.filterSecrets Scenario.red line).
Proof.
  repeat split.
  - done.
  - apply list_elem_of_here.
  - apply includes_occurs. by vm_compute.
  - apply includes_occurs. by vm_compute.
Qed.

Lemma filterSecrets_redacts_witness :
  str "sk-ADMIN-TOKEN-x" ∈ Pika.f_secrets Scenario.tokens ∧
  occurs (str "sk-ADMIN-TOKEN-x") Scenario.token_line ∧
  Pika.apart_from_placeholder (str "sk-ADMIN-TOKEN-x") = true ∧
  occurs Pika.REDACTED (Pika.filterSecrets Scenario.tokens Scenario.token_line) ∧
  ¬ occurs (str "sk-ADMIN-TOKEN-x")
      (Pika.filterSecrets Scenario.tokens Scenario.token_line).
Proof.
  assert (str "sk-ADMIN-TOKEN-x" ∈ Pika.f_secrets Scenario.tokens) as Hin
    by apply list_elem_of_here.
  assert (occurs (str "sk-ADMIN-TOKEN-x") Scenario.token_line) as Hocc
    by (apply includes_occurs; reflexivity).
  destruct (filterSecrets_redacts Scenario.tokens Scenario.token_line
              (str "sk-ADMIN-TOKEN-x") Hin) as (_ & _ & _ & Hplace & Hgone).
  split; [exact Hin|]. split; [exact Hocc|]. split; [reflexivity|].
  split; [exact (Hplace Hocc) | exact (Hgone eq_refl)].
Defined.

(** Redacting [code RED] twice with the secret [RED] differs from redacting
    it once: the second pass finds the secret inside the placeholder. *)
Lemma filterSecrets_twice_differs :
  Pika.filterSecrets Scenario.red (Pika.filterSecrets Scenario.red (str "code RED"))
    ≠ Pika.filterSecrets Scenario.red (str "code RED").
Proof. by vm_compute. Qed.

Lemma filterSecrets_idempotent_witness :
  (forallb Pika.apart_from_placeholder (Pika.f_secrets Scenario.tokens) = true ∨
   forallb (λ secret, negb (includes secret
                              (Pika.filterSecrets Scenario.tokens Scenario.token_line)))
     (Pika.f_secrets Scenario.tokens) = true) ∧
  Pika.filterSecrets Scenario.tokens
    (Pika.filterSecrets Scenario.tokens Scenario.token_line)
  = Pika.filterSecrets Scenario.tokens Scenario.token_line.
Proof.
  split; [left; reflexivity|].
  apply (filterSecrets_idempotent Scenario.tokens Scenario.token_line).
  left. reflexivity.
Defined.

(** Each kind of overlap with the placeholder lets a secret through: a
    secret inside the placeholder, one ending with its first code unit, one
    starting with its last code unit, and one containing it. *)
Lemma overlapping_secrets_leak :
  let redact secrets line :=
    Pika.filterSecrets
      {| Pika.f_scope := str "main"; Pika.f_level := Utils.INFO; Pika.f_longest := 7;
         Pika.f_useColors := false; Pika.f_secrets := secrets |} line in
  includes (str "RED") (redact [str "RED"] (str "code RED")) = true ∧
  includes (str "x[") (redact [str "x["] (str "xx[")) = true ∧
  includes (str "]x") (redact [str "]x"] (str "]xx")) = true ∧
  includes (str "a[REDACTED]b") (redact [str "a[REDACTED]b"; str "c"] (str "acb")) = true.
Proof. repeat split; reflexivity. Qed.

(** ** The level gate and the routing *)

Section Logging.

Import Utils.

Lemma method_log name this args w :
  Pika.method name this args w = Pika.log this (TYPES name) args w.
Proof. by destruct name. Qed.

Lemma writes_write s chunk w : writes (write s chunk w) = S (writes w).
Proof. destruct s; unfold writes; simpl; rewrite length_app; simpl; lia. Qed.

(** C1.  A call of a named logging method performs the stream write exactly
    when the level of its descriptor is at least the minimum level of the
    logger.  At equal levels it writes; one level below, and anywhere below,
    the world is left as it was whatever the arguments are. *)
Theorem log_gate (this : Pika.t) (name : LogTypeName) (args : list JsValue) (w : World) :
  let D := rank (level (TYPES name)) in
  let L := rank (Pika.f_level this) in
  (writes (Pika.method name this args w) = S (writes w) ↔ (D >= L)%Z) ∧
  (D = L → writes (Pika.method name this args w) = S (writes w)) ∧
  (D = (L - 1)%Z → Pika.method name this args w = w) ∧
  ((D < L)%Z → ∀ args', Pika.method name this args' w = w).
Proof.
  intros D L. assert (∀ a, (D < L)%Z → Pika.method name this a w = w) as Hlow.
  { intros a H. rewrite method_log. unfold Pika.log. fold D L.
    by apply Z.ltb_lt in H as ->. }
  assert ((D >= L)%Z → writes (Pika.method name this args w) = S (writes w)) as Hhigh.
  { intros H. rewrite method_log. unfold Pika.log. fold D L.
    destruct (Z.ltb_spec D L); [lia|]. apply writes_write. }
  split; [split|split; [|split]].
  - intros H. destruct (Z.lt_ge_cases D L) as [Hlt|Hge]; [|lia].
    rewrite Hlow in H by done. lia.
  - done.
  - intros H. apply Hhigh. lia.
  - intros H. apply Hlow. lia.
  - intros H a. by apply Hlow.
Qed.

(** C9.  A call that passes the gate writes one chunk, the composed and
    redacted line followed by a single line feed, to standard error for
    [error] and [fatal] and to standard output for the other five. *)
Theorem log_routes (this : Pika.t) (name : LogTypeName) (args : list JsValue) (w : World) :
  (rank (level (TYPES name)) >= rank (Pika.f_level this))%Z →
  Pika.method name this args w =
    write (match name with
           | error | fatal => Stderr
           | success | warn | trace | debug | info => Stdout
           end)
      (Pika.filterSecrets this (Pika.buildMessage this (TYPES name) args) ++ [10])
      w.
Proof.
  intros H. rewrite method_log. unfold Pika.log.
  destruct (Z.ltb_spec (rank (level (TYPES name))) (rank (Pika.f_level this))); [lia|].
  by destruct name.
Qed.

End Logging.

Lemma log_routes_witness :
  (Utils.rank (Utils.level (Utils.TYPES Utils.error))
     >= Utils.rank (Pika.f_level Scenario.logger))%Z ∧
  Pika.method Utils.error Scenario.logger [VError Scenario.boom] Scenario.quiet =
    write Utils.Stderr
      (Pika.filterSecrets Scenario.logger
         (Pika.buildMessage Scenario.logger (Utils.TYPES Utils.error)
            [VError Scenario.boom]) ++ [10])
      Scenario.quiet.
Proof.
  split; [by vm_compute|].
  apply (log_routes Scenario.logger Utils.error [VError Scenario.boom] Scenario.quiet).
  by vm_compute.
Defined.

(** ** The builders *)

Section Builders.

Import Utils.

Implicit Types h : Pika.Heap.

Lemma alloc_fresh h obj :
  let '(h', r) := Pika.alloc h obj in
  h !! r = None ∧ h' !! r = Some obj ∧ ∀ r0 o, h !! r0 = Some o → h' !! r0 = Some o.
Proof.
  simpl. split; [by apply lookup_ge_None|]. split.
  - by rewrite lookup_app_r, Nat.sub_diag.
  - intros r0 o H. by apply lookup_app_l_Some.
Qed.

(** Every builder allocates the instance the constructor makes of some
    options and returns the reference to it. *)
Lemma build_alloc env h this obj b :
  h !! this = Some obj →
  ∃ opts, Pika.build env h this b = Some (Pika.alloc h (Pika.new env opts)).
Proof.
  intros H. destruct b; simpl;
    unfold Pika.scope, Pika.level, Pika.secrets, Pika.clone;
    rewrite H; simpl; by eexists.
Qed.

(** C2.  A builder call ([scope], [level], [secrets], [clone]) on an
    instance returns a reference to a new instance and leaves the receiver,
    and every other instance, as it was: the receiver keeps its scope,
    minimum level, secret list and colour flag, and its logging calls do what
    they did before. *)
Theorem builders_do_not_mutate (env : Env) (h : Pika.Heap) (this : Pika.ref)
    (obj : Pika.t) (b : Pika.Builder) :
  h !! this = Some obj →
  ∃ h' r,
    Pika.build env h this b = Some (h', r) ∧
    r ≠ this ∧ h !! r = None ∧ is_Some (h' !! r) ∧
    h' !! this = Some obj ∧
    (∀ r0 o, h !! r0 = Some o → h' !! r0 = Some o) ∧
    (∀ name args w, Pika.call h' this name args w = Pika.call h this name args w).
Proof.
  intros H. destruct (build_alloc env h this obj b H) as [opts ->].
  pose proof (alloc_fresh h (Pika.new env opts)) as Hfresh.
  destruct (Pika.alloc h (Pika.new env opts)) as [h' r].
  destruct Hfresh as (Hnone & Hnew & Hold).
  exists h', r. split_and!; try done.
  - intros E. rewrite E in Hnone. congruence.
  - by apply Hold.
  - intros name args w. unfold Pika.call. by rewrite (Hold _ _ H), H.
Qed.

(** C3.  [secrets(n1, ..., nk)] returns an instance whose secret list is the
    receiver's list followed by the new names in order; nothing is dropped,
    a name already present is added again. *)
Theorem secrets_appends (env : Env) (h : Pika.Heap) (this : Pika.ref)
    (obj : Pika.t) (names : list jsstring) :
  h !! this = Some obj →
  ∃ h' r obj',
    Pika.secrets env h this names = Some (h', r) ∧
    h' !! r = Some obj' ∧
    Pika.f_secrets obj' = Pika.f_secrets obj ++ names ∧
    length (Pika.f_secrets obj') = (length (Pika.f_secrets obj) + length names)%nat ∧
    (∀ n, n ∈ Pika.f_secrets obj → n ∈ names →
          ∃ i j, i ≠ j ∧ Pika.f_secrets obj' !! i = Some n ∧
                 Pika.f_secrets obj' !! j = Some n).
Proof.
  intros H. unfold Pika.secrets. rewrite H. simpl.
  eexists _, _, _. split; [done|]. split.
  { by rewrite lookup_app_r, Nat.sub_diag. }
  simpl. split; [done|]. split; [by rewrite length_app|].
  intros n [i Hi]%list_elem_of_lookup [j Hj]%list_elem_of_lookup.
  exists i, (length (Pika.f_secrets obj) + j)%nat. split.
  - apply lookup_lt_Some in Hi. lia.
  - split; [by apply lookup_app_l_Some|].
    rewrite lookup_app_r by lia. by replace (_ + j - _)%nat with j by lia.
Qed.

(** The README chain builds the logger of the scenarios. *)
Lemma readme_logger :
  ∃ h r, Scenario.readme = Some (h, r) ∧ h !! r = Some Scenario.logger.
Proof. by eexists _, _. Qed.

(** X17.  The builders of the first revision change the receiver where it lies
    and hand the same reference back. *)
Lemma Legacy_builders_assign (h : Legacy.Heap) (this : nat) (obj : Legacy.t)
    (s : jsstring) (l : Level) (names : list jsstring) :
  h !! this = Some obj →
  (∃ h' : Legacy.Heap, Legacy.scope h this s = Some (h', this) ∧
         Legacy.f_scope <$> h' !! this = Some s) ∧
  (∃ h' : Legacy.Heap, Legacy.level h this l = Some (h', this) ∧
         Legacy.f_level <$> h' !! this = Some l) ∧
  (∃ h' : Legacy.Heap, Legacy.secrets h this names = Some (h', this) ∧
         Legacy.f_secrets <$> h' !! this = Some names).
Proof.
  intros H. pose proof (lookup_lt_Some _ _ _ H) as Hlt.
  unfold Legacy.scope, Legacy.level, Legacy.secrets. rewrite H. simpl.
  repeat split; eexists; (split; [done|]); by rewrite list_lookup_insert_eq.
Qed.

End Builders.

Lemma builders_do_not_mutate_witness :
  [Scenario.plain] !! 0%nat = Some Scenario.plain ∧
  ∃ h' r,
    Pika.build Scenario.env [Scenario.plain] 0 (Pika.Secrets [str "apiKey"])
      = Some (h', r) ∧
    r ≠ 0%nat ∧ [Scenario.plain] !! r = None ∧ is_Some (h' !! r) ∧
    h' !! 0%nat = Some Scenario.plain ∧
    (∀ r0 o, [Scenario.plain] !! r0 = Some o → h' !! r0 = Some o) ∧
    (∀ name args w,
       Pika.call h' 0 name args w = Pika.call [Scenario.plain] 0 name args w).
Proof.
  split; [reflexivity|].
  apply (builders_do_not_mutate Scenario.env [Scenario.plain] 0 Scenario.plain
           (Pika.Secrets [str "apiKey"])).
  reflexivity.
Defined.

Lemma secrets_appends_witness :
  [Scenario.red] !! 0%nat = Some Scenario.red ∧
  ∃ h' r obj',
    Pika.secrets Scenario.env [Scenario.red] 0 [str "apiKey"; str "RED"]
      = Some (h', r) ∧
    h' !! r = Some obj' ∧
    Pika.f_secrets obj' = Pika.f_secrets Scenario.red ++ [str "apiKey"; str "RED"] ∧
    length (Pika.f_secrets obj') =
      (length (Pika.f_secrets Scenario.red) + length [str "apiKey"; str "RED"])%nat ∧
    (∀ n, n ∈ Pika.f_secrets Scenario.red → n ∈ [str "apiKey"; str "RED"] →
          ∃ i j, i ≠ j ∧ Pika.f_secrets obj' !! i = Some n ∧
                 Pika.f_secrets obj' !! j = Some n).
Proof.
  split; [reflexivity|].
  apply (secrets_appends Scenario.env [Scenario.red] 0 Scenario.red
           [str "apiKey"; str "RED"]).
  reflexivity.
Defined.

(** ** Composing the line *)

Section Composer.

Import Utils.

Implicit Types this : Pika.t.

Lemma buildMessage_payload this ty first rest :
  Pika.buildMessage this ty (first :: rest) =
    join (str " ") (Pika.parts this ty) ++ str " " ++ Pika.payload this first rest.
Proof. unfold Pika.buildMessage. by rewrite join_snoc. Qed.

(** The scope tag is wrapped in the grey escape whatever the colour flag is. *)
Lemma buildMessage_starts_grey this ty args :
  ∃ tail, Pika.buildMessage this ty args = code GREY ++ tail.
Proof.
  destruct args as [|first rest].
  - unfold Pika.buildMessage, Pika.getMeta. simpl. by eexists.
  - rewrite buildMessage_payload. unfold Pika.parts, Pika.getMeta. simpl. by eexists.
Qed.

Lemma quote_units_plain (s : jsstring) :
  Forall (λ c, 32 ≤ c ∧ c ≠ 34 ∧ c ≠ 92 ∧ (c < 55296 ∨ 57343 < c)) s →
  Js.quote_units s = s.
Proof.
  assert (∀ c, 32 ≤ c ∧ c ≠ 34 ∧ c ≠ 92 ∧ (c < 55296 ∨ 57343 < c) →
               Js.quote_unit c = [c] ∧ Js.is_lead c = false) as Hunit.
  { intros c (H32 & H34 & H92 & Hsur). unfold Js.quote_unit, Js.is_lead, Js.is_trail.
    repeat match goal with
    | |- context [?a =? ?b] => destruct (N.eqb_spec a b); [lia|]
    | |- context [?a <? ?b] => destruct (N.ltb_spec a b); [lia|]
    end.
    destruct (N.leb_spec 55296 c), (N.leb_spec c 56319),
      (N.leb_spec 56320 c), (N.leb_spec c 57343); try lia; done. }
  assert (∀ c d t, Js.quote_units (c :: d :: t) =
            if Js.is_lead c && Js.is_trail d then c :: d :: Js.quote_units t
            else Js.quote_unit c ++ Js.quote_units (d :: t)) as Hcons by done.
  induction 1 as [|c s Hc Hs IH]; [done|].
  destruct (Hunit c Hc) as [Hq Hl]. destruct s as [|d s]; [done|].
  rewrite Hcons, Hl, Hq, IH. done.
Qed.

(** C6 (the code at the failing input).  With colours disabled,
    [logger.info("hello")] writes a line whose scope tag and pointer are
    still wrapped in escape sequences; only badge, label and payload are
    plain. *)
Theorem plain_output_has_escapes :
  Pika.f_useColors Scenario.plain = false ∧
  Pika.info Scenario.plain [VStr (str "hello")] Scenario.quiet =
    {| stdout :=
         [ESC :: str "[90m[main]" ++ ESC :: str "[0m " ++
          ESC :: str "[90m" ++ Figure.POINTER_SMALL ++ ESC :: str "[0m " ++
          Figure.INFO ++ str "  info    hello" ++ [10]];
       stderr := [] |} ∧
  ∀ chunk, chunk ∈ stdout (Pika.info Scenario.plain [VStr (str "hello")] Scenario.quiet) →
           ESC ∈ chunk.
Proof.
  split; [reflexivity|]. split; [reflexivity|].
  intros chunk Hc. vm_compute in Hc.
  apply list_elem_of_singleton in Hc as ->. apply list_elem_of_here.
Qed.

(** C7 (as amended).  A plain record as first argument is rendered as its
    entries in order, each as [key = value], joined by a comma and a space
    and put after the label.  The value is the text [JSON.stringify] returns
    for it: a string is quoted (and stands verbatim between the quotes when
    it needs no escape, with quotes, backslashes and control characters
    escaped otherwise); a nested object is rendered in braces with its
    members, never as [[object Object]].  The one value for which
    [JSON.stringify] returns no text, [undefined], appears as the word
    [undefined].  For the call of the README the pairs
    [endpoint = "/users/profile"] and [responseTime = "700ms"] are in what
    is written. *)
Theorem formatObject_pairs (this : Pika.t) (ty : LogType)
    (entries : list (jsstring * JsValue)) (rest : list JsValue) :
  let rendered :=
    join (str ", ")
      (map (λ kv, fst kv ++ str " = " ++ Js.template (Js.stringify (snd kv))) entries) in
  let plain := Forall (λ c, 32 ≤ c ∧ c ≠ 34 ∧ c ≠ 92 ∧ (c < 55296 ∨ 57343 < c)) in
  Pika.payload this (VObj entries) rest = rendered ∧
  Pika.buildMessage this ty (VObj entries :: rest) =
    join (str " ") (Pika.parts this ty) ++ str " " ++ rendered ∧
  (∀ s, Js.template (Js.stringify (VStr s)) = [34] ++ Js.quote_units s ++ [34]) ∧
  (∀ s, plain s → Js.template (Js.stringify (VStr s)) = [34] ++ s ++ [34]) ∧
  (∀ kvs, ∃ body, Js.template (Js.stringify (VObj kvs)) = str "{" ++ body ++ str "}") ∧
  (∀ kvs, Js.template (Js.stringify (VObj kvs)) ≠ str "[object Object]") ∧
  occurs Scenario.endpoint_pair (Pika.buildMessage this (TYPES debug) [Scenario.profile]) ∧
  occurs Scenario.responseTime_pair (Pika.buildMessage this (TYPES debug) [Scenario.profile]) ∧
  (∃ chunk, Pika.debug Scenario.logger [Scenario.profile] Scenario.quiet =
              {| stdout := [chunk]; stderr := [] |} ∧
            occurs (Scenario.endpoint_pair ++ str ", " ++ Scenario.responseTime_pair) chunk) ∧
  (∀ v, Js.stringify v = None ↔ v = VUndefined) ∧
  Js.template (Js.stringify VUndefined) = str "undefined" ∧
  (∀ pairs : list (jsstring * jsstring),
     Forall (λ ks, plain (snd ks)) pairs →
     Pika.payload this (VObj (map (λ ks, (fst ks, VStr (snd ks))) pairs)) rest =
       join (str ", ") (map (λ ks, fst ks ++ str " = " ++ [34] ++ snd ks ++ [34]) pairs)) ∧
  (∀ k s, plain k → plain s →
     Js.template (Js.stringify (VObj [(k, VStr s)])) =
       str "{" ++ [34] ++ k ++ [34] ++ str ":" ++ [34] ++ s ++ [34] ++ str "}") ∧
  Js.template (Js.stringify (VStr (str "a" ++ [34; 92; 10] ++ str "b"))) =
    [34] ++ str "a" ++ [92; 34; 92; 92; 92] ++ str "nb" ++ [34].
Proof.
  intros rendered plain. split_and!.
  - done.
  - by rewrite buildMessage_payload.
  - done.
  - intros s Hs. simpl. unfold Js.quote. by rewrite quote_units_plain.
  - intros kvs. simpl. by eexists.
  - intros kvs. simpl. destruct (join _ _); discriminate.
  - rewrite buildMessage_payload.
    exists (join (str " ") (Pika.parts this (TYPES debug)) ++ str " "),
           (str ", " ++ Scenario.responseTime_pair).
    rewrite <- !app_assoc. reflexivity.
  - rewrite buildMessage_payload.
    exists (join (str " ") (Pika.parts this (TYPES debug)) ++ str " " ++
            Scenario.endpoint_pair ++ str ", "), [].
    rewrite <- !app_assoc. rewrite app_nil_r. reflexivity.
  - eexists. split; [reflexivity|]. apply includes_occurs. reflexivity.
  - intros v. split; [|by intros ->]. destruct v as [| |[|]| | | | | | |]; done.
  - done.
  - intros pairs Hpairs. change (Pika.payload this (VObj ?e) rest) with (Pika.formatObject (VObj e)).
    unfold Pika.formatObject. change (Js.entries (VObj ?e)) with e.
    rewrite map_map. f_equal. induction Hpairs as [|[k v] pairs Hv Hrest IH]; [done|].
    cbn [map fst snd] in *. rewrite IH. do 3 f_equal.
    change (Js.template (Js.stringify (VStr v))) with ([34] ++ Js.quote_units v ++ [34]).
    by rewrite quote_units_plain.
  - intros k s Hk Hs.
    change (Js.template (Js.stringify (VObj [(k, VStr s)]))) with
      (str "{" ++ (([34] ++ Js.quote_units k ++ [34]) ++ str ":" ++
                   ([34] ++ Js.quote_units s ++ [34])) ++ str "}").
    rewrite !quote_units_plain by done. by rewrite <- !app_assoc.
  - reflexivity.
Qed.

(** A property whose value is [undefined]: [JSON.stringify] has no text for
    it, and [logger.info({ a: undefined })] writes [a = undefined], which is
    no JSON text. *)
Lemma formatObject_undefined_value :
  Js.stringify VUndefined = None ∧
  Pika.payload Scenario.plain (VObj [(str "a", VUndefined)]) [] = str "a = undefined" ∧
  Pika.info Scenario.plain [VObj [(str "a", VUndefined)]] Scenario.quiet =
    {| stdout := [join (str " ") (Pika.parts Scenario.plain (TYPES info)) ++
                  str " a = undefined" ++ [10]];
       stderr := [] |}.
Proof. split; [reflexivity|]. split; reflexivity. Qed.

(** C8 (as amended).  For an error as first argument: with a stack (a
    non-empty string) the payload is the first stack line passed to the
    colour encoder with the underline style, a line feed, and the remaining
    stack lines passed to it with grey; with colours on that is the
    underlined first line and the grey rest.  Without a stack the payload is
    exactly the message of the error, so it is non-empty whenever the
    message is. *)
Theorem formatError_payload (this : Pika.t) (e : JsError) (rest : list JsValue) :
  (Js.truthy (err_stack e) = false →
     Pika.payload this (VError e) rest = err_message e ∧
     (err_message e ≠ [] → Pika.payload this (VError e) rest ≠ [])) ∧
  (∀ stack, err_stack e = Some stack → stack ≠ [] →
     ∃ name lines,
       stack = join str_nl (name :: lines) ∧ (10 ∉ name) ∧
       Pika.payload this (VError e) rest =
         Pika.applyColor this name [UNDERLINE] ++ str_nl ++
         Pika.applyColor this (join str_nl lines) [GREY] ∧
       (Pika.f_useColors this = true →
        Pika.payload this (VError e) rest =
          code UNDERLINE ++ name ++ code RESET ++ str_nl ++
          code GREY ++ join str_nl lines ++ code RESET)).
Proof.
  split.
  - intros H. simpl. unfold Pika.formatError. rewrite H. simpl.
    split; [done|]. by intros ?.
  - intros stack Hst Hne. simpl. unfold Pika.formatError. rewrite Hst. simpl.
    destruct stack as [|c stack]; [done|]. cbn [Js.truthy negb].
    pose proof (join_split1 10 (c :: stack)) as Hjoin.
    pose proof (split1_lines 10 (c :: stack)) as Hlines.
    pose proof (split1_nonempty 10 (c :: stack)) as Hnon.
    destruct (split1 10 (c :: stack)) as [|name lines]; [done|].
    exists name, lines. split_and!.
    + done.
    + by inversion Hlines.
    + done.
    + intros Hcol. unfold Pika.applyColor. rewrite Hcol. unfold colour. simpl.
      by rewrite <- !app_assoc.
Qed.

(** An error without a stack and with an empty message contributes an empty
    payload: [logger.error(e)] then writes the head of the line, the
    separator and nothing after it. *)
Lemma formatError_empty_payload :
  let e := {| err_name := str "Error"; err_message := []; err_stack := None |} in
  Pika.payload Scenario.plain (VError e) [] = [] ∧
  Pika.error Scenario.plain [VError e] Scenario.quiet =
    {| stdout := [];
       stderr := [join (str " ") (Pika.parts Scenario.plain (TYPES error)) ++ str " " ++ [10]] |}.
Proof. split; reflexivity. Qed.

(** C10.  A variable counts as a signal when it is set to a non-empty
    string.  With a disable signal ([NO_COLOR] or [NODE_DISABLE_COLORS]) the
    default is off, also when [FORCE_COLOR] is a signal too; with any of the
    three signals the terminal check has no part in the result; with none of
    them the result is the terminal check. *)
Theorem shouldUseColors_precedence (env : Env) :
  ((Js.truthy (NO_COLOR env) = true ∨ Js.truthy (NODE_DISABLE_COLORS env) = true) ∧
   Js.truthy (FORCE_COLOR env) = true → shouldUseColors env = false) ∧
  (Js.truthy (NO_COLOR env) = true ∨ Js.truthy (NODE_DISABLE_COLORS env) = true →
   shouldUseColors env = false) ∧
  (Js.truthy (NO_COLOR env) = true ∨ Js.truthy (NODE_DISABLE_COLORS env) = true ∨
   Js.truthy (FORCE_COLOR env) = true →
   ∀ tty,
     shouldUseColors {| NO_COLOR := NO_COLOR env;
                        NODE_DISABLE_COLORS := NODE_DISABLE_COLORS env;
                        FORCE_COLOR := FORCE_COLOR env;
                        isTTY := tty;
                        getFilename := getFilename env |} = shouldUseColors env) ∧
  (Js.truthy (NO_COLOR env) = false → Js.truthy (NODE_DISABLE_COLORS env) = false →
   Js.truthy (FORCE_COLOR env) = false →
   shouldUseColors env = default false (isTTY env)).
Proof.
  unfold shouldUseColors. simpl.
  destruct (Js.truthy (NO_COLOR env)), (Js.truthy (NODE_DISABLE_COLORS env)),
    (Js.truthy (FORCE_COLOR env)); simpl; split_and!; try done;
    intros; intuition congruence.
Qed.

End Composer.

(** ** Further properties of the logger *)

Section Alignment.

Import Utils.

Lemma applyColor_length (this : Pika.t) text colors :
  length (Pika.applyColor this text colors) =
    (length text +
     if Pika.f_useColors this then length (concat (map code colors)) + 4 else 0)%nat.
Proof.
  unfold Pika.applyColor, colour. destruct (Pika.f_useColors this); [|lia].
  rewrite !length_app. simpl. lia.
Qed.

(** X1.  The label column: no label is longer than the width the constructor
    computes, some label has exactly that width, and in an instance made by
    the constructor the part of the line before the payload has the same
    length for all seven methods, so payloads start in one column. *)
Theorem label_column_aligned (env : Env) (options : Pika.PikaOptions)
    (name other : LogTypeName) :
  let this := Pika.new env options in
  (length (label (TYPES name)) ≤ Pika.f_longest this)%nat ∧
  (∃ widest, length (label (TYPES widest)) = Pika.f_longest this) ∧
  length (join (str " ") (Pika.parts this (TYPES name))) =
    length (join (str " ") (Pika.parts this (TYPES other))).
Proof.
  intros this. split; [|split].
  - destruct name; vm_compute; lia.
  - exists success. reflexivity.
  - unfold Pika.parts, Pika.getMeta. cbn [length Nat.ltb Nat.leb app map join].
    rewrite !length_app, !applyColor_length.
    change (Pika.f_longest this) with Pika.getLongestLabel.
    generalize (length (colour (Pika.formatScope this) [GREY])).
    destruct (Pika.f_useColors this), name, other; intros n; by vm_compute.
Qed.

End Alignment.

Section Gate.

Import Utils.

(** X2.  [fatal] is written at every minimum level and goes to standard error
    only; [trace] is written at the minimum level TRACE and at no other. *)
Theorem gate_extremes (this : Pika.t) (args : list JsValue) (w : World) :
  (writes (Pika.fatal this args w) = S (writes w) ∧
   stdout (Pika.fatal this args w) = stdout w) ∧
  (writes (Pika.trace this args w) = S (writes w) ↔ Pika.f_level this = TRACE).
Proof.
  unfold Pika.fatal, Pika.trace, Pika.log. split.
  - destruct (Pika.f_level this); simpl; unfold writes; simpl;
      rewrite length_app; simpl; split; (lia || done).
  - destruct (Pika.f_level this); simpl; unfold writes; simpl;
      rewrite ?length_app; simpl; split; (lia || done).
Qed.

(** X3.  Lowering the minimum level never silences a call: what an instance
    writes, an instance with a lower or equal minimum level writes too. *)
Theorem gate_monotone (strict loose : Pika.t) (name : LogTypeName)
    (args args' : list JsValue) (w w' : World) :
  (rank (Pika.f_level loose) ≤ rank (Pika.f_level strict))%Z →
  writes (Pika.method name strict args w) = S (writes w) →
  writes (Pika.method name loose args' w') = S (writes w').
Proof.
  intros Hle. rewrite !method_log. unfold Pika.log.
  destruct (Z.ltb_spec (rank (level (TYPES name))) (rank (Pika.f_level strict))).
  - lia.
  - intros _. destruct (Z.ltb_spec (rank (level (TYPES name))) (rank (Pika.f_level loose)));
      [lia | apply writes_write].
Qed.

(** X4.  A logger made without options writes [success], [info], [warn],
    [error] and [fatal] and suppresses [trace] and [debug], in every
    environment. *)
Theorem default_logger_gate (env : Env) (name : LogTypeName)
    (args : list JsValue) (w : World) :
  writes (Pika.method name (Pika.new env Scenario.no_options) args w) = S (writes w)
  ↔ name ≠ trace ∧ name ≠ debug.
Proof.
  rewrite method_log. unfold Pika.log.
  change (Pika.f_level (Pika.new env Scenario.no_options)) with INFO.
  destruct name;
    match goal with
    | |- context [(?a <? ?b)%Z] =>
        let r := eval vm_compute in (a <? b)%Z in change (a <? b)%Z with r
    end; cbv iota; rewrite ?writes_write; (split; [|intros [? ?]]); (done || lia).
Qed.

End Gate.

Lemma gate_monotone_witness :
  (Utils.rank (Pika.f_level Scenario.logger)
     ≤ Utils.rank (Pika.f_level Scenario.plain))%Z ∧
  writes (Pika.method Utils.warn Scenario.plain [] Scenario.quiet)
    = S (writes Scenario.quiet) ∧
  writes (Pika.method Utils.warn Scenario.logger [VNull] Scenario.quiet)
    = S (writes Scenario.quiet).
Proof.
  split; [by vm_compute|]. split; [reflexivity|].
  apply (gate_monotone Scenario.plain Scenario.logger Utils.warn [] [VNull]
           Scenario.quiet Scenario.quiet); [by vm_compute | reflexivity].
Defined.

Section RedactionMore.

Import Utils.

(** X5.  A line that contains none of the registered secrets is passed on as it
    is: redaction has no false positives. *)
Theorem filterSecrets_unchanged (this : Pika.t) (line : jsstring) :
  forallb (λ secret, negb (includes secret line)) (Pika.f_secrets this) = true →
  Pika.filterSecrets this line = line.
Proof.
  intros H. rewrite filterSecrets_fold. apply redact_absent, Forall_forall.
  intros s Hs Hocc. apply (forallb_elem_of _ _ s H) in Hs.
  apply includes_occurs in Hocc. rewrite Hocc in Hs. done.
Qed.

(** X6.  Secrets added with [secrets(...)] are applied after the ones the
    receiver had: the new instance redacts a line as the receiver does and
    then replaces the new names in what comes out. *)
Theorem filterSecrets_after_secrets (env : Env) (h : Pika.Heap) (this : Pika.ref)
    (obj : Pika.t) (names : list jsstring) (line : jsstring) :
  h !! this = Some obj →
  ∃ h' r obj',
    Pika.secrets env h this names = Some (h', r) ∧ h' !! r = Some obj' ∧
    Pika.filterSecrets obj' line =
      fold_left (λ sanitized secret, replaceAll secret Pika.REDACTED sanitized)
        names (Pika.filterSecrets obj line).
Proof.
  intros H. unfold Pika.secrets. rewrite H. simpl. eexists _, _, _.
  split; [done|]. split; [by rewrite lookup_app_r, Nat.sub_diag|].
  rewrite !filterSecrets_fold. simpl. by rewrite fold_left_app.
Qed.

End RedactionMore.

Lemma filterSecrets_unchanged_witness :
  forallb (λ secret, negb (includes secret (str "Response took longer than expected.")))
    (Pika.f_secrets Scenario.logger) = true ∧
  Pika.filterSecrets Scenario.logger (str "Response took longer than expected.")
    = str "Response took longer than expected.".
Proof.
  split; [reflexivity|].
  apply (filterSecrets_unchanged Scenario.logger
           (str "Response took longer than expected.")).
  reflexivity.
Defined.

Lemma filterSecrets_after_secrets_witness :
  [Scenario.red] !! 0%nat = Some Scenario.red ∧
  ∃ h' r obj',
    Pika.secrets Scenario.env [Scenario.red] 0 [str "code"] = Some (h', r) ∧
    h' !! r = Some obj' ∧
    Pika.filterSecrets obj' (str "code RED") =
      fold_left (λ sanitized secret, replaceAll secret Pika.REDACTED sanitized)
        [str "code"] (Pika.filterSecrets Scenario.red (str "code RED")).
Proof.
  split; [reflexivity|].
  apply (filterSecrets_after_secrets Scenario.env [Scenario.red] 0 Scenario.red
           [str "code"] (str "code RED")).
  reflexivity.
Defined.

Section PayloadMore.

Import Utils.

Lemma includes_singleton c t : includes [c] t = true ↔ c ∈ t.
Proof.
  rewrite includes_occurs. split.
  - intros (pre & post & ->). apply elem_of_app. right. apply list_elem_of_here.
  - intros (pre & post & ->)%list_elem_of_split. by exists pre, post.
Qed.

(** X7.  With colours off the payload of an error with a stack is the stack
    text itself when it has several lines, and the stack text followed by a
    line feed when it is a single line. *)
Theorem formatError_plain (this : Pika.t) (e : JsError) (stack : jsstring) :
  Pika.f_useColors this = false → err_stack e = Some stack → stack ≠ [] →
  Pika.formatError this e = if includes [10] stack then stack else stack ++ [10].
Proof.
  intros Hcol Hst Hne. unfold Pika.formatError, Pika.applyColor.
  rewrite Hst, Hcol. destruct stack as [|c stack]; [done|]. cbn [Js.truthy negb].
  change (default [] (Some (c :: stack))) with (c :: stack).
  pose proof (join_split1 10 (c :: stack)) as Hjoin.
  pose proof (split1_lines 10 (c :: stack)) as Hlines.
  pose proof (split1_nonempty 10 (c :: stack)) as Hnon.
  destruct (split1 10 (c :: stack)) as [|name lines]; [done|].
  destruct lines as [|line lines].
  - simpl in Hjoin. subst name. rewrite app_nil_r.
    destruct (includes [10] (c :: stack)) eqn:E; [|done].
    apply includes_singleton in E. by inversion Hlines.
  - rewrite join_cons in Hjoin by done. unfold str_nl. rewrite Hjoin.
    destruct (includes [10] (c :: stack)) eqn:E; [done|].
    apply not_true_iff_false in E. destruct E. apply includes_occurs.
    rewrite <- Hjoin. by eexists _, _.
Qed.

(** X8.  After a record, an array or an error as first argument the remaining
    arguments are not rendered: the call writes what it writes without
    them. *)
Theorem structured_first_drops_rest (this : Pika.t) (name : LogTypeName)
    (first : JsValue) (rest rest' : list JsValue) (w : World) :
  match first with
  | VObj _ | VArr _ | VError _ => True
  | _ => False
  end →
  Pika.method name this (first :: rest) w = Pika.method name this (first :: rest') w.
Proof.
  intros H. rewrite !method_log. unfold Pika.log, Pika.buildMessage.
  by destruct first.
Qed.

End PayloadMore.

Lemma formatError_plain_witness :
  Pika.f_useColors Scenario.plain = false ∧
  err_stack Scenario.boom = Some (str "Error: boom" ++ str_nl ++ str "    at main.ts:1:7") ∧
  str "Error: boom" ++ str_nl ++ str "    at main.ts:1:7" ≠ [] ∧
  Pika.formatError Scenario.plain Scenario.boom =
    str "Error: boom" ++ str_nl ++ str "    at main.ts:1:7".
Proof.
  split; [reflexivity|]. split; [reflexivity|]. split; [discriminate|].
  apply (formatError_plain Scenario.plain Scenario.boom
           (str "Error: boom" ++ str_nl ++ str "    at main.ts:1:7"));
    [reflexivity | reflexivity | discriminate].
Defined.

Lemma structured_first_drops_rest_witness :
  Pika.method Utils.info Scenario.plain [Scenario.profile; VStr (str "extra")] Scenario.quiet
  = Pika.method Utils.info Scenario.plain [Scenario.profile] Scenario.quiet.
Proof.
  apply (structured_first_drops_rest Scenario.plain Utils.info Scenario.profile
           [VStr (str "extra")] [] Scenario.quiet).
  exact I.
Defined.

(** ** What [JSON.stringify] lets through *)

Section Printable.

Import Utils.

(** Code units from the space upwards: no escape, no line feed. *)
Local Abbreviation printable := (Forall (λ c : N, 32 ≤ c)).

Lemma printable_str_uint d :
  printable (str (DecimalString.NilEmpty.string_of_uint d)).
Proof.
  induction d; simpl; try constructor; try done; by apply N.leb_le.
Qed.

Lemma printable_decimal z : printable (Js.decimal z).
Proof.
  unfold Js.decimal, DecimalString.NilZero.string_of_int,
    DecimalString.NilZero.string_of_uint, DecimalString.NilEmpty.string_of_int.
  destruct (Z.to_int z) as [d|d].
  - destruct d; try apply printable_str_uint. by repeat constructor.
  - change (printable (45 :: str (match d with
                                  | Decimal.Nil => "0"%string
                                  | _ => DecimalString.NilEmpty.string_of_uint d
                                  end))).
    constructor; [by apply N.leb_le|].
    destruct d; try apply printable_str_uint. by repeat constructor.
Qed.

Lemma printable_unicode_escape c : printable (Js.unicode_escape c).
Proof.
  unfold Js.unicode_escape. simpl.
  assert (∀ n, 32 ≤ Js.hex_digit n) as H.
  { intros n. unfold Js.hex_digit. destruct (N.ltb_spec n 10); lia. }
  repeat constructor; try apply H; by apply N.leb_le.
Qed.

Lemma printable_quote_unit c : printable (Js.quote_unit c).
Proof.
  unfold Js.quote_unit.
  repeat match goal with
  | |- context [if ?a =? ?b then _ else _] =>
      destruct (N.eqb_spec a b); [by repeat constructor|]
  end.
  destruct (N.ltb_spec c 32); [apply printable_unicode_escape|].
  destruct (_ || _); [apply printable_unicode_escape|]. by repeat constructor.
Qed.

Lemma printable_quote_units s : printable (Js.quote_units s).
Proof.
  remember (length s) as n eqn:Hn. revert s Hn.
  induction n as [n IH] using lt_wf_ind. intros [|c [|d s]] Hn.
  - constructor.
  - apply printable_quote_unit.
  - change (Js.quote_units (c :: d :: s)) with
      (if Js.is_lead c && Js.is_trail d then c :: d :: Js.quote_units s
       else Js.quote_unit c ++ Js.quote_units (d :: s)).
    destruct (Js.is_lead c && Js.is_trail d) eqn:E.
    + apply andb_true_iff in E as [Hc Hd]. unfold Js.is_lead, Js.is_trail in *.
      apply andb_true_iff in Hc as [Hc _]. apply andb_true_iff in Hd as [Hd _].
      apply N.leb_le in Hc, Hd.
      constructor; [lia|]. constructor; [lia|].
      apply (IH (length s)); [subst n; simpl; lia | done].
    + apply Forall_app. split; [apply printable_quote_unit|].
      apply (IH (length (d :: s))); [subst n; simpl; lia | done].
Qed.

Lemma printable_quote s : printable (Js.quote s).
Proof.
  unfold Js.quote. apply Forall_app. split; [by repeat constructor|].
  apply Forall_app. split; [apply printable_quote_units | by repeat constructor].
Qed.

Lemma printable_join sep pieces :
  printable sep → Forall printable pieces → printable (join sep pieces).
Proof.
  intros Hsep. induction 1 as [|x rest Hx Hrest IH]; [constructor|].
  destruct rest as [|y rest]; [done|]. rewrite join_cons by done.
  apply Forall_app. split; [done|]. apply Forall_app. by split.
Qed.

(** Induction on values that reaches the items of arrays and records. *)
Lemma JsValue_nested_ind (P : JsValue → Prop) :
  P VUndefined → P VNull → (∀ b, P (VBool b)) → (∀ z, P (VNum z)) →
  (∀ s, P (VStr s)) →
  (∀ items, Forall P items → P (VArr items)) →
  (∀ entries, Forall (λ kv, P (snd kv)) entries → P (VObj entries)) →
  (∀ e, P (VError e)) → (∀ a b, P (VDate a b)) → (∀ a b, P (VRegExp a b)) →
  ∀ v, P v.
Proof.
  intros Hu Hn Hb Hz Hs Ha Ho He Hd Hr.
  fix IH 1. intros [| |b|z|s|items|entries|e|a b|a b];
    [apply Hu | apply Hn | apply Hb | apply Hz | apply Hs | | |
     apply He | apply Hd | apply Hr].
  - apply Ha. induction items as [|x items IHitems]; constructor; [apply IH | done].
  - apply Ho. induction entries as [|[k x] entries IHentries]; constructor;
      [apply IH | done].
Qed.

(** What [JSON.stringify] produces never holds a control character. *)
Lemma printable_stringify v j : Js.stringify v = Some j → printable j.
Proof.
  revert j. induction v as [| |b|z|s|items IH|entries IH|e|a b|a b]
    using JsValue_nested_ind; intros j Hj.
  - done.
  - injection Hj as <-. by repeat constructor.
  - destruct b; injection Hj as <-; by repeat constructor.
  - injection Hj as <-. apply printable_decimal.
  - injection Hj as <-. apply printable_quote.
  - assert (j = str "[" ++
                join (str ",") (map (λ x, default (str "null") (Js.stringify x)) items) ++
                str "]") as -> by (injection Hj as <-; reflexivity).
    apply Forall_app. split; [by repeat constructor|].
    apply Forall_app. split; [|by repeat constructor].
    apply printable_join; [by repeat constructor|].
    apply Forall_map. eapply Forall_impl; [exact IH|].
    intros x Hx. cbv beta. destruct (Js.stringify x) as [jx|] eqn:E.
    + by apply Hx.
    + by repeat constructor.
  - set (pair := λ kv : jsstring * JsValue,
                   match Js.stringify (snd kv) with
                   | Some j => Some (Js.quote (fst kv) ++ str ":" ++ j)
                   | None => None
                   end).
    assert (j = str "{" ++ join (str ",") (omap pair entries) ++ str "}") as ->
      by (injection Hj as <-; reflexivity).
    apply Forall_app. split; [by repeat constructor|].
    apply Forall_app. split; [|by repeat constructor].
    apply printable_join; [by repeat constructor|].
    clear Hj. induction IH as [|[k x] entries Hx Hrest IHrest]; [constructor|].
    change (omap pair ((k, x) :: entries)) with
      (match pair (k, x) with
       | Some y => y :: omap pair entries
       | None => omap pair entries
       end).
    unfold pair at 1. change (snd (k, x)) with x in *. change (fst (k, x)) with k.
    destruct (Js.stringify x) as [jx|] eqn:E; [|done].
    constructor; [|done]. apply Forall_app. split; [apply printable_quote|].
    apply Forall_app. split; [by repeat constructor | by apply Hx].
  - injection Hj as <-. by repeat constructor.
  - injection Hj as <-. apply printable_quote.
  - injection Hj as <-. by repeat constructor.
Qed.

(** X9.  A record whose keys hold no control character is rendered on one
    line, without escape or line feed, whatever its values are: strings are
    quoted with their control characters escaped.  Keys are not escaped. *)
Theorem formatObject_one_line (entries : list (jsstring * JsValue)) :
  forallb (λ kv, forallb (N.leb 32) (fst kv)) entries = true →
  (∀ c, c ∈ Pika.formatObject (VObj entries) → 32 ≤ c) ∧
  (ESC ∉ Pika.formatObject (VObj entries)) ∧
  (10 ∉ Pika.formatObject (VObj entries)).
Proof.
  intros Hkeys.
  assert (printable (Pika.formatObject (VObj entries))) as H.
  { unfold Pika.formatObject. apply printable_join; [by repeat constructor|].
    change (Js.entries (VObj entries)) with entries.
    apply Forall_map, Forall_forall. intros [k v] Hkv. cbv beta.
    change (fst (k, v)) with k. change (snd (k, v)) with v.
    apply Forall_app. split.
    - apply (forallb_elem_of _ _ _ Hkeys) in Hkv. cbv beta in Hkv.
      change (fst (k, v)) with k in Hkv.
      apply Forall_forall. intros c Hc.
      by apply (forallb_elem_of _ _ _ Hkv), N.leb_le in Hc.
    - apply Forall_app. split; [by repeat constructor|].
      destruct (Js.stringify v) as [j|] eqn:E; simpl.
      + by eapply printable_stringify.
      + by repeat constructor. }
  rewrite Forall_forall in H. split; [done|].
  split; intros Hc; apply H in Hc; unfold ESC in *; lia.
Qed.

End Printable.

Lemma formatObject_one_line_witness :
  forallb (λ kv, forallb (N.leb 32) (fst kv))
    [(str "note", VStr (str "line one" ++ [10; 27] ++ str "[31mline two"))] = true ∧
  (∀ c, c ∈ Pika.formatObject
              (VObj [(str "note", VStr (str "line one" ++ [10; 27] ++ str "[31mline two"))]) →
        32 ≤ c) ∧
  (Utils.ESC ∉ Pika.formatObject
              (VObj [(str "note", VStr (str "line one" ++ [10; 27] ++ str "[31mline two"))])) ∧
  (10 ∉ Pika.formatObject
         (VObj [(str "note", VStr (str "line one" ++ [10; 27] ++ str "[31mline two"))])).
Proof.
  split; [reflexivity|].
  apply (formatObject_one_line
           [(str "note", VStr (str "line one" ++ [10; 27] ++ str "[31mline two"))]).
  reflexivity.
Defined.

(** ** Chains of builders *)

Section BuilderChains.

Import Utils.

Implicit Types h : Pika.Heap.

Lemma lookup_alloc h (obj : Pika.t) : (h ++ [obj]) !! length h = Some obj.
Proof. by apply list_lookup_middle. Qed.

(** X10.  [scope], [level] and [secrets] give an instance that differs from the
    receiver in the one field they name ([secrets] extends it), whatever the
    environment is at the time of the call: the colour flag and the scope
    are copied, not derived again. *)
Theorem builders_replace_one_field (env : Env) (h : Pika.Heap) (this : Pika.ref)
    (obj : Pika.t) (s : jsstring) (l : Level) (names : list jsstring) :
  h !! this = Some obj →
  Pika.f_longest obj = Pika.getLongestLabel →
  Pika.configuration (Pika.scope env h this s) =
    Some {| Pika.f_scope := s; Pika.f_level := Pika.f_level obj;
            Pika.f_longest := Pika.f_longest obj;
            Pika.f_useColors := Pika.f_useColors obj;
            Pika.f_secrets := Pika.f_secrets obj |} ∧
  Pika.configuration (Pika.level env h this l) =
    Some {| Pika.f_scope := Pika.f_scope obj; Pika.f_level := l;
            Pika.f_longest := Pika.f_longest obj;
            Pika.f_useColors := Pika.f_useColors obj;
            Pika.f_secrets := Pika.f_secrets obj |} ∧
  Pika.configuration (Pika.secrets env h this names) =
    Some {| Pika.f_scope := Pika.f_scope obj; Pika.f_level := Pika.f_level obj;
            Pika.f_longest := Pika.f_longest obj;
            Pika.f_useColors := Pika.f_useColors obj;
            Pika.f_secrets := Pika.f_secrets obj ++ names |}.
Proof.
  intros H Hlong. unfold Pika.scope, Pika.level, Pika.secrets. rewrite H, Hlong.
  simpl. by rewrite !lookup_alloc.
Qed.

(** X11.  [clone(overrides)]: for each option, a key that is absent keeps the
    value of the receiver, a key given a value sets it, and a key given
    [undefined] falls back to the default of the constructor (the scope
    derived from the call stack, INFO, no secrets, the colour decision of
    the environment). *)
Theorem clone_overrides (env : Env) (h : Pika.Heap) (this : Pika.ref)
    (obj : Pika.t) (ov : Pika.Overrides) :
  h !! this = Some obj →
  Pika.configuration (Pika.clone env h this ov) =
    Some {| Pika.f_scope := match Pika.v_scope ov with
                            | None => Pika.f_scope obj
                            | Some None => getFilename env
                            | Some (Some s) => s
                            end;
            Pika.f_level := match Pika.v_level ov with
                            | None => Pika.f_level obj
                            | Some None => INFO
                            | Some (Some l) => l
                            end;
            Pika.f_longest := Pika.getLongestLabel;
            Pika.f_useColors := match Pika.v_useColors ov with
                                | None => Pika.f_useColors obj
                                | Some None => shouldUseColors env
                                | Some (Some b) => b
                                end;
            Pika.f_secrets := match Pika.v_secrets ov with
                              | None => Pika.f_secrets obj
                              | Some None => []
                              | Some (Some ss) => ss
                              end |}.
Proof.
  intros H. unfold Pika.clone. rewrite H. simpl. rewrite lookup_alloc.
  unfold Pika.new, Pika.spread, Pika.options. simpl.
  destruct ov as [[[?|]|] [[?|]|] [[?|]|] [[?|]|]]; reflexivity.
Qed.

(** X12.  The label width is the same in every instance: if it holds of the
    instances of a heap it holds after any builder call, which adds exactly
    one instance at the end of the heap and returns its reference. *)
Theorem builders_keep_label_width (env : Env) (h h' : Pika.Heap)
    (this r : Pika.ref) (b : Pika.Builder) :
  Forall (λ obj, Pika.f_longest obj = Pika.getLongestLabel) h →
  Pika.build env h this b = Some (h', r) →
  Forall (λ obj, Pika.f_longest obj = Pika.getLongestLabel) h' ∧
  length h' = S (length h) ∧ r = length h.
Proof.
  intros Hinv Hb. destruct (h !! this) as [obj|] eqn:H.
  - destruct (build_alloc env h this obj b H) as [opts Hopts].
    rewrite Hopts in Hb. injection Hb as <- <-.
    split; [|split; [rewrite length_app; simpl; lia | done]].
    apply Forall_app. split; [done|]. by repeat constructor.
  - destruct b; simpl in Hb;
      unfold Pika.scope, Pika.level, Pika.secrets, Pika.clone in Hb;
      rewrite H in Hb; done.
Qed.

Lemma chain_is_Some env h this (obj : Pika.t) bs :
  h !! this = Some obj → is_Some (Pika.configuration (Pika.chain env h this bs)).
Proof.
  revert h this obj. induction bs as [|b bs IH]; intros h this obj H.
  - simpl. by rewrite H.
  - destruct (build_alloc env h this obj b H) as [opts Hopts].
    cbn [Pika.chain]. rewrite Hopts. unfold Pika.alloc. simpl.
    eapply IH, lookup_alloc.
Qed.

(** X13.  Chains of builder calls: two [secrets] calls amount to one with the
    names in sequence; of two [scope] calls, or two [level] calls, the last
    one decides; [scope], [level] and [secrets] can be called in any order;
    and [clone()] without overrides gives a copy of the receiver. *)
Theorem builder_chains (env : Env) (h : Pika.Heap) (this : Pika.ref) (obj : Pika.t)
    (s s' : jsstring) (l l' : Level) (names names' : list jsstring) :
  h !! this = Some obj →
  Pika.f_longest obj = Pika.getLongestLabel →
  let run bs := Pika.configuration (Pika.chain env h this bs) in
  run [Pika.Secrets names; Pika.Secrets names'] = run [Pika.Secrets (names ++ names')] ∧
  run [Pika.Scope s; Pika.Scope s'] = run [Pika.Scope s'] ∧
  run [Pika.Level_ l; Pika.Level_ l'] = run [Pika.Level_ l'] ∧
  run [Pika.Scope s; Pika.Level_ l] = run [Pika.Level_ l; Pika.Scope s] ∧
  run [Pika.Scope s; Pika.Secrets names] = run [Pika.Secrets names; Pika.Scope s] ∧
  run [Pika.Level_ l; Pika.Secrets names] = run [Pika.Secrets names; Pika.Level_ l] ∧
  run [Pika.Clone Pika.no_overrides] = Some obj ∧
  is_Some (run [Pika.Scope s; Pika.Level_ l; Pika.Secrets names]).
Proof.
  intros H Hlong run.
  assert (is_Some (run [Pika.Scope s; Pika.Level_ l; Pika.Secrets names])) as Hsome
    by (by eapply chain_is_Some).
  revert Hsome. generalize (run [Pika.Scope s; Pika.Level_ l; Pika.Secrets names]).
  intros last Hsome.
  unfold run, Pika.chain, Pika.build,
    Pika.scope, Pika.level, Pika.secrets, Pika.clone.
  rewrite H. simpl. rewrite !lookup_alloc. simpl.
  rewrite !lookup_alloc. simpl. rewrite <- !app_assoc.
  destruct obj. simpl in Hlong. subst. split_and!; done.
Qed.

End BuilderChains.

Lemma builders_replace_one_field_witness :
  [Scenario.red] !! 0%nat = Some Scenario.red ∧
  Pika.f_longest Scenario.red = Pika.getLongestLabel ∧
  Pika.configuration (Pika.level Scenario.env [Scenario.red] 0 Utils.FATAL) =
    Some {| Pika.f_scope := Pika.f_scope Scenario.red; Pika.f_level := Utils.FATAL;
            Pika.f_longest := Pika.f_longest Scenario.red;
            Pika.f_useColors := Pika.f_useColors Scenario.red;
            Pika.f_secrets := Pika.f_secrets Scenario.red |}.
Proof.
  split; [reflexivity|]. split; [reflexivity|].
  apply (builders_replace_one_field Scenario.env [Scenario.red] 0 Scenario.red
           [] Utils.FATAL []); reflexivity.
Defined.

Lemma clone_overrides_witness :
  [Scenario.logger] !! 0%nat = Some Scenario.logger ∧
  Pika.configuration
    (Pika.clone Scenario.env [Scenario.logger] 0
       {| Pika.v_scope := Some (Some (str "child")); Pika.v_level := Some None;
          Pika.v_secrets := None; Pika.v_useColors := None |}) =
    Some {| Pika.f_scope := str "child"; Pika.f_level := Utils.INFO;
            Pika.f_longest := Pika.getLongestLabel;
            Pika.f_useColors := Pika.f_useColors Scenario.logger;
            Pika.f_secrets := Pika.f_secrets Scenario.logger |}.
Proof.
  split; [reflexivity|].
  apply (clone_overrides Scenario.env [Scenario.logger] 0 Scenario.logger
           {| Pika.v_scope := Some (Some (str "child")); Pika.v_level := Some None;
              Pika.v_secrets := None; Pika.v_useColors := None |}).
  reflexivity.
Defined.

Lemma builders_keep_label_width_witness :
  Forall (λ obj, Pika.f_longest obj = Pika.getLongestLabel) [Scenario.plain] ∧
  Pika.build Scenario.env [Scenario.plain] 0 (Pika.Level_ Utils.TRACE) =
    Some ([Scenario.plain;
           Pika.new Scenario.env
             {| Pika.o_scope := Some (str "main"); Pika.o_level := Some Utils.TRACE;
                Pika.o_secrets := Some []; Pika.o_useColors := Some false |}], 1%nat) ∧
  Forall (λ obj, Pika.f_longest obj = Pika.getLongestLabel)
    [Scenario.plain;
     Pika.new Scenario.env
       {| Pika.o_scope := Some (str "main"); Pika.o_level := Some Utils.TRACE;
          Pika.o_secrets := Some []; Pika.o_useColors := Some false |}] ∧
  length [Scenario.plain;
          Pika.new Scenario.env
            {| Pika.o_scope := Some (str "main"); Pika.o_level := Some Utils.TRACE;
               Pika.o_secrets := Some []; Pika.o_useColors := Some false |}]
    = S (length [Scenario.plain]) ∧
  1%nat = length [Scenario.plain].
Proof.
  assert (Forall (λ obj, Pika.f_longest obj = Pika.getLongestLabel) [Scenario.plain])
    as Hinv by (constructor; [reflexivity | constructor]).
  split; [exact Hinv|]. split; [reflexivity|].
  apply (builders_keep_label_width Scenario.env [Scenario.plain] _ 0 1
           (Pika.Level_ Utils.TRACE) Hinv).
  reflexivity.
Defined.

Lemma builder_chains_witness :
  [Scenario.plain] !! 0%nat = Some Scenario.plain ∧
  Pika.f_longest Scenario.plain = Pika.getLongestLabel ∧
  Pika.configuration
    (Pika.chain Scenario.env [Scenario.plain] 0
       [Pika.Secrets [str "password123"]; Pika.Secrets [str "apiKey"]]) =
  Pika.configuration
    (Pika.chain Scenario.env [Scenario.plain] 0
       [Pika.Secrets [str "password123"; str "apiKey"]]) ∧
  Pika.configuration
    (Pika.chain Scenario.env [Scenario.plain] 0 [Pika.Clone Pika.no_overrides]) =
  Some Scenario.plain.
Proof.
  split; [reflexivity|]. split; [reflexivity|].
  destruct (builder_chains Scenario.env [Scenario.plain] 0 Scenario.plain
              [] [] Utils.INFO Utils.INFO [str "password123"] [str "apiKey"]
              eq_refl eq_refl) as (Hsecrets & _ & _ & _ & _ & _ & Hclone & _).
  split; [exact Hsecrets | exact Hclone].
Defined.

(** ** The scope derived from the call stack *)

Section Caller.

Import Introspection.

Variable parse_name : jsstring → jsstring.
Variable fileURLToPath : jsstring → option jsstring.

Lemma same_eq a b : same a b = true ↔ a = b.
Proof.
  destruct a as [| |p], b as [| |q]; simpl; try (split; done).
  rewrite andb_true_iff, Nat.eqb_eq, prefixb_prefix. split.
  - intros [Hlen [k ->]]. rewrite length_app in Hlen.
    destruct k; [by rewrite app_nil_r | simpl in Hlen; lia].
  - intros [= ->]. split; [done|]. exists []. by rewrite app_nil_r.
Qed.

Lemma same_refl a : same a a = true.
Proof. by apply same_eq. Qed.

Lemma find_skips_own (current : FileName) k rest :
  List.find (λ callSite, negb (same callSite current)) (replicate k current ++ rest)
  = List.find (λ callSite, negb (same callSite current)) rest.
Proof. induction k as [|k IH]; [done|]. simpl. by rewrite same_refl. Qed.

(** X14.  Without a frame from another file there is no caller to name: no
    stack, an empty stack, or a stack whose frames all come from the file of
    the first frame give ["anonymous"]. *)
Theorem getFilename_no_caller (current : FileName) (k : nat) :
  getFilename parse_name fileURLToPath None = anonymous ∧
  getFilename parse_name fileURLToPath (Some []) = anonymous ∧
  getFilename parse_name fileURLToPath (Some (current :: replicate k current))
    = anonymous.
Proof.
  split; [done|]. split; [done|]. unfold getFilename.
  rewrite <- (app_nil_r (replicate k current)), find_skips_own. done.
Qed.

(** X15.  The first frame that is not from the file of the first frame decides
    alone: the frames of the logger's own file before it and every frame
    after it are of no account.  When that frame has no file name, or an
    empty one, the result is ["anonymous"] even if frames with a file name
    follow. *)
Theorem getFilename_first_external (current external : FileName) (k : nat)
    (tail : list FileName) :
  external ≠ current →
  getFilename parse_name fileURLToPath
    (Some (current :: replicate k current ++ external :: tail))
  = getFilename parse_name fileURLToPath (Some [current; external]) ∧
  (match external with File (_ :: _) => False | _ => True end →
   getFilename parse_name fileURLToPath
     (Some (current :: replicate k current ++ external :: tail)) = anonymous).
Proof.
  intros Hne. unfold getFilename. rewrite find_skips_own. simpl.
  destruct (same external current) eqn:E; [by apply same_eq in E|]. simpl.
  split; [done|]. by destruct external as [| |[|c p]].
Qed.

(** X16.  The first revision's [_filename] and [#getFilename] agree on every
    stack in which no frame has a [file://] URL as its file name. *)
Theorem filename_revisions_agree (stack : option (list FileName)) :
  forallb (λ f, match f with
                | File p => negb (prefixb (str "file://") p)
                | _ => true
                end) (default [] stack) = true →
  _filename parse_name stack = getFilename parse_name fileURLToPath stack.
Proof.
  destruct stack as [[|first rest]|]; try done. intros H.
  unfold _filename, getFilename. cbn [List.find]. rewrite same_refl. cbn [negb].
  destruct (List.find _ rest) as [[| |[|c p]]|] eqn:E; try done.
  apply List.find_some in E as [Hin _].
  change (default [] (Some (first :: rest))) with (first :: rest) in H.
  rewrite forallb_forall in H. specialize (H _ (or_intror Hin)).
  cbv beta iota in H. apply negb_true_iff in H. by rewrite H.
Qed.

End Caller.

Lemma getFilename_first_external_witness :
  Introspection.Null ≠ Introspection.File (str "/app/node_modules/pika/index.js") ∧
  Introspection.getFilename (λ p, p) Some
    (Some (Introspection.File (str "/app/node_modules/pika/index.js") ::
           replicate 2 (Introspection.File (str "/app/node_modules/pika/index.js")) ++
           Introspection.Null :: [Introspection.File (str "/app/main.js")]))
  = Introspection.anonymous.
Proof.
  split; [discriminate|].
  apply (getFilename_first_external (λ p, p) Some
           (Introspection.File (str "/app/node_modules/pika/index.js"))
           Introspection.Null 2 [Introspection.File (str "/app/main.js")]);
    [discriminate | exact I].
Defined.

Lemma filename_revisions_agree_witness :
  forallb (λ f, match f with
                | Introspection.File p => negb (prefixb (str "file://") p)
                | _ => true
                end)
    (default [] (Some [Introspection.File (str "/app/index.js");
                       Introspection.File (str "/app/main.js")])) = true ∧
  Introspection._filename (λ p, p)
    (Some [Introspection.File (str "/app/index.js");
           Introspection.File (str "/app/main.js")])
  = Introspection.getFilename (λ p, p) Some
      (Some [Introspection.File (str "/app/index.js");
             Introspection.File (str "/app/main.js")]).
Proof.
  split; [reflexivity|].
  apply (filename_revisions_agree (λ p, p) Some
           (Some [Introspection.File (str "/app/index.js");
                  Introspection.File (str "/app/main.js")])).
  reflexivity.
Defined.

(** ** The first revision *)

Section SplitJoin.

Implicit Types s p t : jsstring.

Lemma split_go_skip s k t :
  JsArray.split_go s k t = JsArray.split_go s 0 (drop k t).
Proof.
  revert k. induction t as [|c t IH]; intros [|k]; try done.
  simpl drop. rewrite <- IH. done.
Qed.

Lemma split_go_match a s r :
  JsArray.split_go (a :: s) 0 ((a :: s) ++ r) = [] :: JsArray.split_go (a :: s) 0 r.
Proof.
  pose proof (prefixb_app (a :: s) r) as E. simpl app in *.
  cbn [JsArray.split_go]. rewrite E, split_go_skip.
  replace (length (a :: s) - 1)%nat with (length s) by (simpl; lia).
  by rewrite drop_app_length.
Qed.

Lemma split_go_step s c t :
  prefixb s (c :: t) = false →
  JsArray.split_go s 0 (c :: t) =
    match JsArray.split_go s 0 t with
    | [] => [[c]]
    | x :: rest => (c :: x) :: rest
    end.
Proof. intros H. cbn [JsArray.split_go]. by rewrite H. Qed.

Lemma split_go_nonempty a s t : JsArray.split_go (a :: s) 0 t ≠ [].
Proof.
  induction t as [|r IH|c t E IH] using (scan_ind a s).
  - done.
  - by rewrite split_go_match.
  - rewrite split_go_step by done. by destruct (JsArray.split_go _ _ _).
Qed.

(** Splitting at a non-empty separator and joining with [p] is
    [replaceAll]. *)
Lemma join_split_replaceAll s p t :
  s ≠ [] → join p (JsArray.split s t) = replaceAll s p t.
Proof.
  destruct s as [|a s]; [done | intros _]. unfold JsArray.split, replaceAll.
  induction t as [|r IH|c t E IH] using (scan_ind a s).
  - done.
  - rewrite split_go_match, replaceAll_go_match by done.
    rewrite join_cons by apply split_go_nonempty. simpl. by rewrite IH.
  - rewrite split_go_step, replaceAll_go_step by done.
    pose proof (split_go_nonempty a s t) as Hne.
    destruct (JsArray.split_go (a :: s) 0 t) as [|x rest]; [done|].
    by rewrite join_cons_head, IH.
Qed.

(** Splitting and joining with the same separator gives the text back. *)
Lemma join_split s t : join s (JsArray.split s t) = t.
Proof.
  destruct s as [|a s]; unfold JsArray.split.
  - induction t as [|c [|d t] IH]; try done.
    change (map (λ c, [c]) (c :: d :: t)) with ([c] :: map (λ c, [c]) (d :: t)).
    rewrite join_cons by done. simpl. f_equal. exact IH.
  - induction t as [|r IH|c t E IH] using (scan_ind a s).
    + done.
    + rewrite split_go_match. rewrite join_cons by apply split_go_nonempty.
      simpl. by rewrite IH.
    + rewrite split_go_step by done.
      pose proof (split_go_nonempty a s t) as Hne.
      destruct (JsArray.split_go (a :: s) 0 t) as [|x rest]; [done|].
      by rewrite join_cons_head, IH.
Qed.

(** X18.  In the first revision redaction is written with [split] and [join]:
    for secrets that are not empty it replaces every non-overlapping
    occurrence, secret after secret, by [[secure]], as a fold of
    [replaceAll] would; and a line without any of the secrets is
    unchanged. *)
Theorem legacy_filterSecrets_replaces (this : Legacy.t) (input : jsstring) :
  forallb (λ secret, negb (length secret =? 0)%nat) (Legacy.f_secrets this) = true →
  Legacy._filterSecrets this input =
    fold_left (λ safe secret, replaceAll secret Legacy.secure safe)
      (Legacy.f_secrets this) input ∧
  (forallb (λ secret, negb (includes secret input)) (Legacy.f_secrets this) = true →
   Legacy._filterSecrets this input = input).
Proof.
  intros Hne. unfold Legacy._filterSecrets.
  assert (∀ l t, forallb (λ secret, negb (length secret =? 0)%nat) l = true →
            fold_left (λ safe secret, join Legacy.secure (JsArray.split secret safe)) l t
            = fold_left (λ safe secret, replaceAll secret Legacy.secure safe) l t) as Hfold.
  { induction l as [|s l IH]; intros t Hl; [done|]. simpl in *.
    apply andb_true_iff in Hl as [Hs Hl].
    rewrite join_split_replaceAll by (by destruct s). by apply IH. }
  revert Hne. destruct (Legacy.f_secrets this) as [|s l]; [done|]. intros Hne.
  change (length (s :: l) =? 0)%nat with false. cbv iota.
  rewrite Hfold by done. split; [done|].
  generalize (s :: l). clear. intros l.
  induction l as [|s l IH]; [done|]. simpl. intros [Hs Hl]%andb_true_iff.
  rewrite replaceAll_absent; [by apply IH|].
  rewrite <- includes_occurs. by destruct (includes s input).
Qed.

End SplitJoin.

Lemma legacy_filterSecrets_replaces_witness :
  let this := {| Legacy.f_scope := str "main"; Legacy.f_level := Utils.TRACE;
                 Legacy.f_longest := 7; Legacy.f_secrets := [str "password123"] |} in
  forallb (λ secret, negb (length secret =? 0)%nat) (Legacy.f_secrets this) = true ∧
  Legacy._filterSecrets this Scenario.password_line =
    fold_left (λ safe secret, replaceAll secret Legacy.secure safe)
      (Legacy.f_secrets this) Scenario.password_line.
Proof.
  split; [reflexivity|].
  apply (legacy_filterSecrets_replaces
           {| Legacy.f_scope := str "main"; Legacy.f_level := Utils.TRACE;
              Legacy.f_longest := 7; Legacy.f_secrets := [str "password123"] |}
           Scenario.password_line).
  reflexivity.
Defined.

Section FirstRevision.

Import Utils.

Lemma string_eqb_eq (a b : jsstring) : Types.string_eqb a b = true ↔ a = b.
Proof.
  unfold Types.string_eqb. rewrite andb_true_iff, Nat.eqb_eq, prefixb_prefix. split.
  - intros [Hlen [k ->]]. rewrite length_app in Hlen.
    destruct k; [by rewrite app_nil_r | simpl in Hlen; lia].
  - intros ->. split; [done|]. exists []. by rewrite app_nil_r.
Qed.

Lemma isColour_inv x :
  Types.isColour x = true → ∃ c, x = VStr c ∧ c ∈ Types.Colour_values.
Proof.
  destruct x; try done. unfold Types.isColour. intros (c & Hc & E)%existsb_exists.
  apply string_eqb_eq in E as ->. exists c. split; [done | by apply list_elem_of_In].
Qed.

Lemma join_nil_concat (pieces : list jsstring) : join [] pieces = concat pieces.
Proof.
  induction pieces as [|x [|y rest] IH]; [done | simpl; by rewrite app_nil_r |].
  rewrite join_cons by done. simpl in *. by rewrite IH.
Qed.

Lemma validate_spec (colours : list JsValue) :
  ∃ kept, Types.validate colours =
            (map Types.warning (List.filter (λ x, negb (Types.isColour x)) colours),
             map VStr kept) ∧
          map VStr kept = List.filter Types.isColour colours ∧
          Forall (λ c, c ∈ Types.Colour_values) kept.
Proof.
  induction colours as [|x colours (kept & Hv & Hk & Hall)].
  - by exists [].
  - cbn [Types.validate List.filter]. rewrite Hv.
    destruct (Types.isColour x) eqn:E; cbn [negb].
    + apply isColour_inv in E as (c & -> & Hc). exists (c :: kept).
      rewrite <- Hk. split; [done|]. split; [done | by constructor].
    + by exists kept.
Qed.

(** X19.  [colour] of types.ts: a call with a text that is not a string throws;
    otherwise the styles that are not members of [Colour] are dropped with
    one warning each, the members are kept in their order, and the text
    comes back after them and before the reset code, so a bad style never
    loses or garbles the text. *)
Theorem colour_validates (input : JsValue) (colours : list JsValue) :
  match input with
  | VStr s =>
      ∃ warnings kept,
        Types.colour input colours =
          inr (warnings, concat kept ++ s ++ Types.code RESET) ∧
        map VStr kept = List.filter Types.isColour colours ∧
        Forall (λ c, c ∈ Types.Colour_values) kept ∧
        warnings = map Types.warning
                     (List.filter (λ x, negb (Types.isColour x)) colours) ∧
        (length warnings + length kept = length colours)%nat
  | _ => Types.colour input colours = inl Types.TypeError
  end.
Proof.
  destruct input; try done.
  destruct (validate_spec colours) as (kept & Hv & Hk & Hall).
  eexists _, kept. unfold Types.colour. rewrite Hv. split_and!; try done.
  - do 2 f_equal. unfold JsArray.array_join. rewrite map_map. simpl.
    rewrite map_id. by rewrite join_nil_concat.
  - rewrite length_map. rewrite <- (length_map VStr kept), Hk.
    clear. induction colours as [|x colours IH]; [done|]. simpl.
    destruct (Types.isColour x); simpl; lia.
Qed.

(** The calls of [colour] made by the logger neither throw nor warn. *)
Lemma paint_colour input (colours : list Colour) :
  Legacy.paint input colours =
    concat (map Types.code colours) ++ input ++ Types.code RESET.
Proof.
  unfold Legacy.paint, Types.colour.
  assert (Types.validate (map (λ c, VStr (Types.code c)) colours) =
            ([], map (λ c, VStr (Types.code c)) colours)) as ->.
  { induction colours as [|c colours IH]; [done|].
    cbn [map Types.validate]. rewrite IH. by destruct c. }
  unfold JsArray.array_join. rewrite map_map. simpl.
  by rewrite join_nil_concat.
Qed.

Lemma legacy_build_some (this : Legacy.t) name args :
  Legacy.f_longest this = Legacy._getLongestLabel →
  is_Some (Legacy._build this (Types.TYPES name) args).
Proof. intros H. unfold Legacy._build. rewrite H. by destruct name. Qed.

(** X20.  The gate of the first revision: with the label width the constructor
    computes, a logging call never throws; it writes one chunk when the level
    of its descriptor is at least the minimum level and leaves the streams
    alone otherwise. *)
Theorem legacy_log_gate (this : Legacy.t) (name : LogTypeName)
    (args : list JsValue) (w : World) :
  Legacy.f_longest this = Legacy._getLongestLabel →
  ∃ w', Legacy.method name this args w = Some w' ∧
        (writes w' = S (writes w) ↔
         (rank (level (Types.TYPES name)) >= rank (Legacy.f_level this))%Z) ∧
        ((rank (level (Types.TYPES name)) < rank (Legacy.f_level this))%Z → w' = w).
Proof.
  intros H. unfold Legacy.method, Legacy._log.
  destruct (legacy_build_some this name args H) as [line ->].
  destruct (Z.geb_spec (rank (level (Types.TYPES name))) (rank (Legacy.f_level this))).
  - eexists. split; [done|]. rewrite writes_write. split; [split; [lia|done] | lia].
  - exists w. split; [done|]. split; [split; lia | done].
Qed.

(** X21.  The first revision renders no payload at all for a first argument that
    is [undefined], [null], a boolean, a number, or an error without a
    stack: the line is the one of a call without arguments. *)
Theorem legacy_build_drops_payload (this : Legacy.t) (type : LogType)
    (first : JsValue) (rest : list JsValue) :
  match first with
  | VUndefined | VNull | VBool _ | VNum _ => True
  | VError e => err_stack e = None
  | _ => False
  end →
  Legacy._build this type (first :: rest) = Legacy._build this type [].
Proof.
  intros H. unfold Legacy._build, Legacy.pushed.
  destruct first as [| | | | | | |e| |]; try done. simpl in *. by rewrite H.
Qed.

(** X22.  The first revision coerces the values of a record with [String]: a
    property whose value is itself a record comes out as
    [key = "[object Object]"]. *)
Theorem legacy_nested_record (this : Legacy.t) (name : LogTypeName)
    (before after nested : list (jsstring * JsValue)) (key : jsstring)
    (rest : list JsValue) :
  Legacy.f_longest this = Legacy._getLongestLabel →
  ∃ line,
    Legacy._build this (Types.TYPES name)
      (VObj (before ++ (key, VObj nested) :: after) :: rest) = Some line ∧
    occurs (key ++ str " = " ++ [34] ++ str "[object Object]" ++ [34]) line.
Proof.
  intros H. unfold Legacy._build. rewrite H.
  assert ((Z.of_nat Legacy._getLongestLabel -
           Z.of_nat (length (label (Types.TYPES name))) <? 0)%Z = false) as ->
    by (by destruct name).
  eexists. split; [done|].
  eapply occurs_trans; [|apply occurs_join; rewrite app_assoc;
                         apply elem_of_app; right; apply list_elem_of_here].
  apply occurs_join.
  change (Js.entries _) with (before ++ (key, VObj nested) :: after).
  rewrite map_app. apply elem_of_app. right. apply list_elem_of_here.
Qed.

End FirstRevision.

Lemma Legacy_builders_assign_witness :
  let obj := {| Legacy.f_scope := str "a"; Legacy.f_level := Utils.INFO;
                Legacy.f_longest := 7; Legacy.f_secrets := [str "old"] |} in
  [obj] !! 0%nat = Some obj ∧
  ∃ h' : Legacy.Heap,
    Legacy.secrets [obj] 0 [str "new"] = Some (h', 0%nat) ∧
    Legacy.f_secrets <$> h' !! 0%nat = Some [str "new"].
Proof.
  split; [reflexivity|].
  destruct (Legacy_builders_assign
              [{| Legacy.f_scope := str "a"; Legacy.f_level := Utils.INFO;
                  Legacy.f_longest := 7; Legacy.f_secrets := [str "old"] |}]
              0 _ [] Utils.INFO [str "new"] eq_refl) as (_ & _ & Hsecrets).
  exact Hsecrets.
Defined.

Lemma legacy_log_gate_witness :
  let this := Legacy.new (str "test")
                {| Legacy.o_scope := Some (str "main"); Legacy.o_level := None;
                   Legacy.o_secrets := None |} in
  Legacy.f_longest this = Legacy._getLongestLabel ∧
  ∃ w', Legacy.method Utils.debug this [VStr (str "x")] Scenario.quiet = Some w' ∧
        (writes w' = S (writes Scenario.quiet) ↔
         (Utils.rank (Utils.level (Types.TYPES Utils.debug))
            >= Utils.rank (Legacy.f_level this))%Z) ∧
        ((Utils.rank (Utils.level (Types.TYPES Utils.debug))
            < Utils.rank (Legacy.f_level this))%Z → w' = Scenario.quiet).
Proof.
  split; [reflexivity|].
  apply (legacy_log_gate
           (Legacy.new (str "test")
              {| Legacy.o_scope := Some (str "main"); Legacy.o_level := None;
                 Legacy.o_secrets := None |})
           Utils.debug [VStr (str "x")] Scenario.quiet).
  reflexivity.
Defined.

Lemma legacy_build_drops_payload_witness :
  let this := Legacy.new (str "test")
                {| Legacy.o_scope := Some (str "main"); Legacy.o_level := None;
                   Legacy.o_secrets := None |} in
  Legacy._build this (Types.TYPES Utils.info) [VNum 42; VStr (str "items")] =
  Legacy._build this (Types.TYPES Utils.info) [].
Proof.
  apply (legacy_build_drops_payload
           (Legacy.new (str "test")
              {| Legacy.o_scope := Some (str "main"); Legacy.o_level := None;
                 Legacy.o_secrets := None |})
           (Types.TYPES Utils.info) (VNum 42) [VStr (str "items")]).
  exact I.
Defined.

Lemma legacy_nested_record_witness :
  let this := Legacy.new (str "test")
                {| Legacy.o_scope := Some (str "main"); Legacy.o_level := None;
                   Legacy.o_secrets := None |} in
  Legacy.f_longest this = Legacy._getLongestLabel ∧
  ∃ line,
    Legacy._build this (Types.TYPES Utils.warn)
      (VObj ([(str "id", VNum 7)] ++ (str "user", VObj [(str "name", VStr (str "Jane"))]) :: [])
       :: []) = Some line ∧
    occurs (str "user" ++ str " = " ++ [34] ++ str "[object Object]" ++ [34]) line.
Proof.
  split; [reflexivity|].
  apply (legacy_nested_record
           (Legacy.new (str "test")
              {| Legacy.o_scope := Some (str "main"); Legacy.o_level := None;
                 Legacy.o_secrets := None |})
           Utils.warn [(str "id", VNum 7)] [] [(str "name", VStr (str "Jane"))]
           (str "user") []).
  reflexivity.
Defined.
